(** * Quiz core: dataset, generator and corrector of [models.py]

    A shallow embedding of the four classes of [models.py]
    ([Question], [QuestionDataset], [QuizGenerator], [QuizCorrector])
    and the properties of the quiz core that follow from the code.

    Conventions of the embedding.
    - Python [str] is [string], [List[str]] is [list string], a Python
      [set] of strings is a [gset string], a [dict] keyed by question
      position is a [gmap nat _].
    - Python [float] scores are modelled by exact rationals [Q]; every
      statement about a score is therefore a statement about the value
      the formula denotes, compared with [==] ([Qeq]).
    - Operations that can raise in Python ([a / b], [l[i]], iterating a
      non-iterable, [.get] on a non-dict) return a [result], so that
      "never raises" is a theorem and not a convention.
    - Python lists are mutable objects: the dataset and the generator
      work on a heap of list objects addressed by locations.
    - The callers of the core in [app.py] (the answer handlers of
      [QuizView] and [calculate_module_stats]) are embedded in the
      module [App]; there [None] stands for a raised exception. *)

From Stdlib Require Import QArith Qminmax Lqa Sorted.
From stdpp Require Import gmap strings list fin_maps sets.

Local Open Scope string_scope.
Local Open Scope list_scope.

(** ** Python runtime primitives *)

Module Py.

(** The exceptions the modelled code paths can raise. *)
Inductive exn :=
| FileNotFoundError
| PermissionError
| JSONDecodeError
| AttributeError
| TypeError
| ZeroDivisionError
| IndexError
| IsADirectoryError
| OSError
| UnicodeDecodeError.

Inductive result (A : Type) :=
| Ok (a : A)
| Raise (e : exn).
Arguments Ok {A} a.
Arguments Raise {A} e.

Definition bind {A B} (m : result A) (k : A -> result B) : result B :=
  match m with
  | Ok a => k a
  | Raise e => Raise e
  end.

(** [a / b] on two [int]s (true division). *)
Definition truediv (a b : nat) : result Q :=
  match b with
  | O => Raise ZeroDivisionError
  | S _ => Ok (inject_Z (Z.of_nat a) / inject_Z (Z.of_nat b))%Q
  end.

(** [x / n] with [x] a float and [n] an [int]. *)
Definition fdiv (x : Q) (n : nat) : result Q :=
  match n with
  | O => Raise ZeroDivisionError
  | S _ => Ok (x / inject_Z (Z.of_nat n))%Q
  end.

(** [l[i]] for a non-negative index. *)
Definition getitem {A} (l : list A) (i : nat) : result A :=
  match l !! i with
  | Some x => Ok x
  | None => Raise IndexError
  end.

(** [max(a, b)]: the first argument is kept unless the second is
    strictly greater. *)
Definition max (a b : Q) : Q :=
  match (a ?= b)%Q with
  | Lt => b
  | _ => a
  end.

(** [l[:k]] for an arbitrary [int] bound: a negative bound counts from
    the end of the list. *)
Definition slice_to {A} (l : list A) (k : Z) : list A :=
  if (0 <=? k)%Z then take (Z.to_nat k) l
  else take (Z.to_nat (Z.of_nat (length l) + k)) l.

(** [min(n, len(l))] where [n] is an [int]. *)
Definition min_len (n : Z) (len : nat) : Z := Z.min n (Z.of_nat len).

End Py.

Import Py.

Notation "x <- m ;; k" := (Py.bind m (fun x => k))
  (at level 100, m at next level, right associativity,
   format "'[v' x  <-  m  ;;  '/' k ']'").

(** ** [class Question] *)

Record Question := mkQuestion {
  question : string;
  choices : list string;
  correct : list string;
  mode : string;
  tags : list string
}.

Definition is_single (q : Question) : bool := bool_decide (mode q = "single").
Definition is_multiple (q : Question) : bool := bool_decide (mode q = "multiple").
Definition is_single_choice (q : Question) : bool := is_single q.

#[global] Instance Question_eq_dec : EqDecision Question.
Proof. solve_decision. Defined.

(** ** [class QuizCorrector] *)

(** [score_single(correct, selected)]. *)
Definition score_single (correct selected : list string) : result Q :=
  match correct with
  | [] => Ok 0%Q
  | _ :: _ =>
      if (length selected =? 1)%nat then
        x <- getitem selected 0 ;;
        if bool_decide (x ∈ correct) then Ok 1%Q else Ok 0%Q
      else Ok 0%Q
  end.

(** [score_multiple(correct, selected)]. *)
Definition score_multiple (correct selected : list string) : result Q :=
  let correct_set : gset string := list_to_set correct in
  let selected_set : gset string := list_to_set selected in
  if (size correct_set =? 0)%nat then Ok 0%Q
  else
    let intersect := correct_set ∩ selected_set in
    let false_selected := selected_set ∖ correct_set in
    let numerator := size intersect in
    let denom := size correct_set in
    a <- truediv numerator denom ;;
    b <- truediv (size false_selected) denom ;;
    let score := (a - b)%Q in
    Ok (Py.max 0%Q score).

(** One entry of ["per_question"]. *)
Record QuestionResult := mkQuestionResult {
  res_index : nat;
  res_question : string;
  res_mode : string;
  res_correct : list string;
  res_selected : list string;
  res_score : Q;
  res_max_score : Q
}.

(** The dictionary returned by [correct_quiz]. *)
Record Correction := mkCorrection {
  per_question : list QuestionResult;
  total_score : Q
}.

(** The strategy chosen by the [if q.is_single()] of [correct_quiz]. *)
Definition score_question (q : Question) (selected : list string) : result Q :=
  if is_single q then score_single (correct q) selected
  else score_multiple (correct q) selected.

(** The body of [for i, q in enumerate(questions)], started at index [i]
    with the accumulators [per_question] and [total_points]. *)
Fixpoint correct_loop (answers : gmap nat (list string)) (i : nat)
    (questions : list Question) (per_question : list QuestionResult)
    (total_points : Q) : result (list QuestionResult * Q) :=
  match questions with
  | [] => Ok (per_question, total_points)
  | q :: rest =>
      let selected := default [] (answers !! i) in
      s <- score_question q selected ;;
      let entry := {| res_index := i;
                      res_question := question q;
                      res_mode := mode q;
                      res_correct := correct q;
                      res_selected := selected;
                      res_score := s;
                      res_max_score := 1%Q |} in
      correct_loop answers (S i) rest (per_question ++ [entry])
                   (total_points + s)%Q
  end.

(** [correct_quiz(questions, answers)]. *)
Definition correct_quiz (questions : list Question)
    (answers : gmap nat (list string)) : result Correction :=
  r <- correct_loop answers 0 questions [] 0%Q ;;
  let '(per_question, total_points) := r in
  total_score_pct <-
    match questions with
    | _ :: _ =>
        d <- fdiv total_points (length questions) ;;
        Ok (d * 100)%Q
    | [] => Ok 0%Q
    end ;;
  Ok {| per_question := per_question; total_score := total_score_pct |}.


(** ** The store: list objects and the dataset instance *)

(** Python lists are objects with identity. The heap maps the location
    of each list object to its current contents; [random.shuffle] and
    [list.append] update a list in place. *)
Definition loc := positive.

(** The attributes of the [QuestionDataset] instance. [_instance] makes
    the class a singleton, so the store holds exactly one such object;
    [QuizGenerator.dataset] refers to it. *)
Record QuestionDataset := mkDataset {
  questions : loc;
  file_path : option string
}.

Record store := mkStore {
  heap : gmap loc (list Question);
  dataset : QuestionDataset
}.

(** Computations that read and update the store and may raise. The
    store is returned in both cases: what a raising call did to the
    store before raising stays visible. *)
Definition M (A : Type) : Type := store -> result A * store.

Definition ret {A} (a : A) : M A := fun σ => (Ok a, σ).
Definition raise {A} (e : exn) : M A := fun σ => (Raise e, σ).
Definition lift {A} (r : result A) : M A := fun σ => (r, σ).
Definition bindM {A B} (m : M A) (k : A -> M B) : M B :=
  fun σ =>
    match m σ with
    | (Ok a, σ') => k a σ'
    | (Raise e, σ') => (Raise e, σ')
    end.

Notation "'let*' x ':=' m 'in' k" := (bindM m (fun x => k))
  (at level 10, x name, m at level 100, k at level 200).

(** A new list object with contents [v]. *)
Definition alloc (v : list Question) : M loc :=
  fun σ =>
    let l := fresh (dom (heap σ)) in
    (Ok l, {| heap := <[l := v]> (heap σ); dataset := dataset σ |}).

(** The current contents of the list object at [l]. *)
Definition read (l : loc) : M (list Question) :=
  fun σ => (Ok (heap σ !!! l), σ).

Definition write (l : loc) (v : list Question) : M unit :=
  fun σ => (Ok tt, {| heap := <[l := v]> (heap σ); dataset := dataset σ |}).

(** [l.append(q)]. *)
Definition append (l : loc) (q : Question) : M unit :=
  let* v := read l in write l (v ++ [q]).

Definition get_self : M QuestionDataset := fun σ => (Ok (dataset σ), σ).

(** [self.questions = l]. *)
Definition set_questions (l : loc) : M unit :=
  fun σ => (Ok tt, {| heap := heap σ;
                      dataset := {| questions := l;
                                    file_path := file_path (dataset σ) |} |}).

(** [self.file_path = p]. *)
Definition set_file_path (p : option string) : M unit :=
  fun σ => (Ok tt, {| heap := heap σ;
                      dataset := {| questions := questions (dataset σ);
                                    file_path := p |} |}).

(** The question sequence a caller observes through [self.questions]. *)
Definition ds_questions (σ : store) : list Question :=
  heap σ !!! questions (dataset σ).

(** The dataset refers to an existing list object. *)
Definition wf (σ : store) : Prop :=
  is_Some (heap σ !! questions (dataset σ)).

(** The store right after [__new__] created the instance:
    [questions = []], [file_path = None]. *)
Definition initial_store : store :=
  {| heap := {[ 1%positive := [] ]};
     dataset := {| questions := 1%positive; file_path := None |} |}.

(** ** [pathlib] paths *)

(** [Path(s)] and [str(p)] for POSIX paths, as far as [load] uses them:
    a path is a root and the components that are neither empty nor
    ["."]; [".."] is kept. *)
Module Pathlib.

Record path := mkPath {
  root : string;
  parts : list string
}.

(** The character [/]. *)
Definition slash : Ascii.ascii :=
  Ascii.Ascii true true true true false true false false.

(** The pieces of a string between its slashes. *)
Fixpoint components (s : string) : list string :=
  match s with
  | EmptyString => [""]
  | String c s' =>
      if Ascii.eqb c slash then "" :: components s'
      else match components s' with
           | [] => [String c ""]
           | part :: rest => String c part :: rest
           end
  end.

Fixpoint leading_slashes (s : string) : nat :=
  match s with
  | String c s' => if Ascii.eqb c slash then S (leading_slashes s') else 0
  | EmptyString => 0
  end.

(** [Path(s)]: exactly two leading slashes are kept as the root ["//"],
    any other number of them is the root ["/"]. *)
Definition Path (s : string) : path :=
  {| root := match leading_slashes s with
             | 0 => ""
             | 2 => "//"
             | _ => "/"
             end;
     parts := filter (fun part => part <> "" /\ part <> ".") (components s) |}.

Fixpoint join_parts (l : list string) : string :=
  match l with
  | [] => ""
  | [part] => part
  | part :: rest => part ++ "/" ++ join_parts rest
  end.

(** [str(p)]: the empty relative path prints as ["."]. *)
Definition str (p : path) : string :=
  match root p, parts p with
  | "", [] => "."
  | r, l => r ++ join_parts l
  end.

(** [p / name] for a relative [name]. *)
Definition joinpath (p : path) (name : string) : path :=
  {| root := root p; parts := parts p ++ parts (Path name) |}.

End Pathlib.

(** ** The JSON source of [load] *)

(** A JSON object of the source file, seen through the five [item.get]
    calls of [load]: a key is absent ([None]) or carries a value of the
    documented type. A value of another JSON type is kept as it is by
    [Question(...)] and gives an object that the record [Question] does
    not describe; such records are outside this embedding, except the
    ones on which [Question(...)] raises, which [json_entry] covers. *)
Record Item := mkItem {
  item_question : option string;
  item_choices : option (list string);
  item_correct : option (list string);
  item_mode : option string;
  item_tags : option (list string)
}.

(** An element met by [for item in data]: a JSON object with values of
    the documented types; a JSON object whose ["correct"] is a number or
    a boolean, on which [list(correct)] raises; or any value that is
    not an object (number, string, list, [null]), which has no [.get]. *)
Inductive json_entry :=
| JObject (it : Item)
| JScalarCorrect
| JNotObject.

(** A decoded JSON document, as far as [for item in data] can tell the
    cases apart. *)
Inductive json :=
| JArray (items : list json_entry)
| JDict (keys : list string)
| JString (s : string)
| JScalar.

(** Why [open] fails on a path that exists. *)
Inductive open_error :=
| EACCES
| EISDIR
| EOTHER.

(** The exception [open] raises for it. *)
Definition open_exn (e : open_error) : exn :=
  match e with
  | EACCES => PermissionError
  | EISDIR => IsADirectoryError
  | EOTHER => OSError
  end.

(** What [fp.exists()], [fp.open("r", encoding="utf-8")] and
    [json.load(f)] deliver for a path, in the order [load] calls them:
    the path does not exist; it exists and [open] fails; the file opens
    and its bytes are not UTF-8, so that reading raises
    [UnicodeDecodeError]; the text is not JSON, so that [json.load]
    raises [JSONDecodeError]; or the text decodes to [data]. *)
Inductive file_state :=
| Missing
| Unopenable (e : open_error)
| Undecodable
| Malformed
| Content (data : json).

(** Where [load] runs: the directory of [models.py], as
    [Path(__file__).parent] prints it, and the state of each path,
    keyed by the string of the path. *)
Record environment := mkEnv {
  module_dir : string;
  files : string -> file_state
}.

(** The elements [for item in data] visits: the elements of an array,
    the keys of an object, the characters of a string; numbers, booleans
    and [null] are not iterable. *)
Definition iter_json (data : json) : result (list json_entry) :=
  match data with
  | JArray items => Ok items
  | JDict keys => Ok (map (fun _ => JNotObject) keys)
  | JString s => Ok (replicate (String.length s) JNotObject)
  | JScalar => Raise TypeError
  end.

(** [Question.__init__]. *)
Definition Question_init (question : string) (choices : list string)
    (correct : option (list string)) (mode : string)
    (tags : option (list string)) : Question :=
  {| question := question;
     choices := choices;
     correct := match correct with Some c => c | None => [] end;
     mode := mode;
     tags := match tags with
             | Some (t :: ts) => t :: ts
             | _ => []
             end |}.

(** The [Question(...)] call of [load] on one JSON object. *)
Definition question_of_item (it : Item) : Question :=
  Question_init (default "" (item_question it))
                (default [] (item_choices it))
                (Some (default [] (item_correct it)))
                (default "single" (item_mode it))
                (Some (default [] (item_tags it))).

(** ** [class QuestionDataset] *)

(** The path [fp] of [load]: [Path(file_path)], or
    [Path(__file__).parent / "quiz_dataset.json"] when [file_path is
    None]. *)
Definition load_path (env : environment) (file_path : option string)
    : Pathlib.path :=
  match file_path with
  | None => Pathlib.joinpath (Pathlib.Path (module_dir env)) "quiz_dataset.json"
  | Some p => Pathlib.Path p
  end.

(** The [for item in data] loop of [load], appending to the local list
    [questions]. *)
Fixpoint load_loop (questions : loc) (items : list json_entry) : M unit :=
  match items with
  | [] => ret tt
  | JNotObject :: _ => raise AttributeError
  | JScalarCorrect :: _ => raise TypeError
  | JObject it :: rest =>
      let* _ := append questions (question_of_item it) in
      load_loop questions rest
  end.

(** [load(file_path)], in the environment [env]. *)
Definition load (env : environment) (file_path : option string) : M unit :=
  let fp := load_path env file_path in
  match files env (Pathlib.str fp) with
  | Missing => raise FileNotFoundError
  | Unopenable e => raise (open_exn e)
  | Undecodable => raise UnicodeDecodeError
  | Malformed => raise JSONDecodeError
  | Content data =>
      let* questions := alloc [] in
      let* items := lift (iter_json data) in
      let* _ := load_loop questions items in
      let* _ := set_questions questions in
      set_file_path (Some (Pathlib.str fp))
  end.

(** [all_tags()]. *)
Definition all_tags : M (gset string) :=
  let* self := get_self in
  let* qs := read (questions self) in
  ret (foldl (fun (acc : gset string) q => acc ∪ list_to_set (tags q)) ∅ qs).

(** The test [tags_set.intersection(q.tags)] of the comprehension. *)
Definition matches (tags_set : gset string) (q : Question) : Prop :=
  size (tags_set ∩ list_to_set (tags q)) ≠ 0%nat.

#[global] Instance matches_dec tags_set q : Decision (matches tags_set q).
Proof. unfold matches. apply _. Defined.

(** [get_questions_by_tags(tags)]; the result is a new list object in
    both branches. *)
Definition get_questions_by_tags (tag_list : option (list string)) : M loc :=
  let* self := get_self in
  let* qs := read (questions self) in
  match tag_list with
  | None | Some [] => alloc qs
  | Some (t :: ts) =>
      let tags_set : gset string := list_to_set (t :: ts) in
      alloc (filter (matches tags_set) qs)
  end.

(** ** [class QuizGenerator] *)

(** [x[i], x[j] = x[j], x[i]]. *)
Definition swap {A} (x : list A) (i j : nat) : list A :=
  match x !! i, x !! j with
  | Some a, Some b => <[j := a]> (<[i := b]> x)
  | _, _ => x
  end.

(** The loop of [random.shuffle]: for [i] from the last index down to 1,
    exchange [x[i]] with [x[j]], [j] drawn below [i + 1]. The random
    source is the list of numbers it delivers, one per iteration. *)
Fixpoint shuffle_down {A} (i : nat) (draws : list nat) (x : list A) : list A :=
  match i with
  | O => x
  | S i' =>
      let j := (hd 0%nat draws mod S i)%nat in
      shuffle_down i' (tl draws) (swap x i j)
  end.

Definition shuffle_list {A} (draws : list nat) (x : list A) : list A :=
  shuffle_down (length x - 1) draws x.

(** [random.shuffle(l)]: the list object at [l] is permuted in place. *)
Definition random_shuffle (draws : list nat) (l : loc) : M unit :=
  let* x := read l in write l (shuffle_list draws x).

(** [generate(tags, n_questions, shuffle)]. *)
Definition generate (tag_list : option (list string)) (n_questions : Z)
    (shuffle : bool) (draws : list nat) : M loc :=
  let* pool := get_questions_by_tags tag_list in
  let* p := read pool in
  match p with
  | [] => alloc []
  | _ :: _ =>
      let* _ := (if shuffle then random_shuffle draws pool else ret tt) in
      let* p' := read pool in
      alloc (slice_to p' (min_len n_questions (length p')))
  end.

(** The contents of the list a computation returns. *)
Definition result_list (r : result loc * store) : result (list Question) :=
  match r with
  | (Ok l, σ) => Ok (heap σ !!! l)
  | (Raise e, _) => Raise e
  end.


(** ** Specification-side definitions *)

(** The partial-credit formula in the specification's words: the three
    cardinalities are counted on the lists with duplicates removed. *)
Definition card (l : list string) : nat := length (remove_dups l).

Definition card_inter (correct selected : list string) : nat :=
  length (filter (fun x => x ∈ selected) (remove_dups correct)).

Definition card_diff (selected correct : list string) : nat :=
  length (filter (fun x => x ∉ correct) (remove_dups selected)).

Definition ratio (a b : nat) : Q := (inject_Z (Z.of_nat a) / inject_Z (Z.of_nat b))%Q.

Definition partial_credit (correct selected : list string) : Q :=
  Qmax 0 (ratio (card_inter correct selected) (card correct)
          - ratio (card_diff selected correct) (card correct))%Q.

(** The sum of a list of scores. *)
Definition Qsum (l : list Q) : Q := foldr Qplus 0%Q l.

(** A tag filter and a question's tags have a tag in common. *)
Definition intersects (tag_list : list string) (q : Question) : Prop :=
  exists t, t ∈ tag_list /\ t ∈ tags q.

#[global] Instance intersects_dec tag_list q : Decision (intersects tag_list q).
Proof.
  unfold intersects.
  destruct (decide (Exists (fun t => t ∈ tags q) tag_list)) as [H|H].
  - left. apply Exists_exists in H. exact H.
  - right. intros H'. apply H. apply Exists_exists. exact H'.
Defined.

(** What [correct_quiz] records for the question [q] at position [i]. *)
Definition entry_for (answers : gmap nat (list string)) (i : nat)
    (q : Question) (e : QuestionResult) : Prop :=
  res_index e = i /\
  res_question e = question q /\
  res_mode e = mode q /\
  res_correct e = correct q /\
  res_selected e = default [] (answers !! i) /\
  score_question q (res_selected e) = Ok (res_score e) /\
  res_max_score e = 1%Q.

Definition in_unit_interval (x : Q) : Prop := (0 <= x /\ x <= 1)%Q.

(** A mode that names one of the two question types. *)
Definition recognized (m : option string) : Prop :=
  m = Some "single" \/ m = Some "multiple".

(** The reading of a record's mode under which a missing or unknown
    mode means "single": the loaded question has mode ["single"] and
    [correct_quiz] scores it with [score_single]. *)
Definition mode_defaults_to_single (it : Item) : Prop :=
  ~ recognized (item_mode it) ->
  mode (question_of_item it) = "single" /\
  forall answers r e,
    correct_quiz [question_of_item it] answers = Ok r ->
    per_question r !! 0%nat = Some e ->
    Ok (res_score e) =
      score_single (correct (question_of_item it))
                   (default [] (answers !! 0%nat)).

(** A record whose mode is neither ["single"] nor ["multiple"]. *)
Definition checkbox_item : Item :=
  {| item_question := Some "Voyelles ?";
     item_choices := Some ["A"; "B"; "E"];
     item_correct := Some ["A"; "E"];
     item_mode := Some "checkbox";
     item_tags := None |}.

(** The questions a tag filter selects from a question sequence, in the
    specification's words: everything when the filter is omitted or
    empty, otherwise the questions with a tag in the filter, in order. *)
Definition filtered (tag_list : option (list string))
    (qs : list Question) : list Question :=
  match tag_list with
  | None | Some [] => qs
  | Some (t :: ts) => filter (intersects (t :: ts)) qs
  end.

(** A store with three loaded questions. *)
Definition q_geo : Question :=
  {| question := "Capitale ?"; choices := ["Paris"; "Lyon"];
     correct := ["Paris"]; mode := "single"; tags := ["geo"] |}.
Definition q_math : Question :=
  {| question := "Pairs ?"; choices := ["2"; "3"; "4"];
     correct := ["2"; "4"]; mode := "multiple"; tags := ["math"] |}.
Definition q_both : Question :=
  {| question := "Altitude ?"; choices := ["4808"; "8849"];
     correct := ["4808"]; mode := "single"; tags := ["geo"; "math"] |}.
Definition three_questions : store :=
  {| heap := {[ 1%positive := [q_geo; q_math; q_both] ]};
     dataset := {| questions := 1%positive; file_path := None |} |}.

(** What the loop of [load] comes to on a sequence of entries: the
    records it turns into questions, or the exception raised at the
    first entry that is not a record of the documented types. *)
Fixpoint entries_outcome (entries : list json_entry) : result (list Item) :=
  match entries with
  | [] => Ok []
  | JObject it :: rest =>
      its <- entries_outcome rest ;;
      Ok (it :: its)
  | JScalarCorrect :: _ => Raise TypeError
  | JNotObject :: _ => Raise AttributeError
  end.

(** What a call of [load] on a file in state [st] comes to: the
    exception it raises, or the records it turns into questions. *)
Definition load_outcome (st : file_state) : result (list Item) :=
  match st with
  | Missing => Raise FileNotFoundError
  | Unopenable e => Raise (open_exn e)
  | Undecodable => Raise UnicodeDecodeError
  | Malformed => Raise JSONDecodeError
  | Content data =>
      entries <- iter_json data ;;
      entries_outcome entries
  end.





(** The records of [q_geo], without a mode, and of [q_math]. *)
Definition item_geo : Item :=
  {| item_question := Some "Capitale ?";
     item_choices := Some ["Paris"; "Lyon"];
     item_correct := Some ["Paris"];
     item_mode := None;
     item_tags := Some ["geo"] |}.
Definition item_math : Item :=
  {| item_question := Some "Pairs ?";
     item_choices := Some ["2"; "3"; "4"];
     item_correct := Some ["2"; "4"];
     item_mode := Some "multiple";
     item_tags := Some ["math"] |}.

(** An environment with the two records of [q_geo] and [q_math] at
    ["quiz.json"], a file that is not JSON at ["broken.json"], a file
    that is not UTF-8 at ["latin1.json"], a record with a number for
    ["correct"] at ["scalar.json"], a directory at ["data"], and
    nothing else. *)
Definition fs_two_records : environment :=
  {| module_dir := "/srv/quiz";
     files := fun path =>
       if bool_decide (path = "quiz.json") then
         Content (JArray [JObject item_geo; JObject item_math])
       else if bool_decide (path = "broken.json") then Malformed
       else if bool_decide (path = "latin1.json") then Undecodable
       else if bool_decide (path = "scalar.json") then
         Content (JArray [JObject checkbox_item; JScalarCorrect])
       else if bool_decide (path = "data") then Unopenable EISDIR
       else Missing |}.

(** ** The remaining operations of [models.py] *)

(** [Question.to_dict()]: a dictionary with the five keys [load] reads. *)
Definition to_dict (q : Question) : Item :=
  {| item_question := Some (question q);
     item_choices := Some (choices q);
     item_correct := Some (correct q);
     item_mode := Some (mode q);
     item_tags := Some (tags q) |}.

(** [as_dict_list()]. *)
Definition as_dict_list : M (list Item) :=
  let* self := get_self in
  let* qs := read (questions self) in
  ret (map to_dict qs).

(** The class attribute [_instance] together with the list objects: the
    state in which [QuestionDataset(...)] is evaluated. *)
Record world := mkWorld {
  lists : gmap loc (list Question);
  _instance : option QuestionDataset
}.

(** [if file_path:] for an optional string: [None] and [""] are false. *)
Definition truthy (file_path : option string) : bool :=
  match file_path with
  | Some (String _ _) => true
  | _ => false
  end.

(** [QuestionDataset.__new__(cls, file_path)]. The first call creates
    the instance with an empty question list before it loads; every call
    loads when a path is given. The instance stays installed when [load]
    raises. *)
Definition QuestionDataset_new (env : environment)
    (file_path : option string) (w : world) : result unit * world :=
  let σ :=
    match _instance w with
    | None =>
        let l := fresh (dom (lists w)) in
        {| heap := <[l := []]> (lists w);
           dataset := {| questions := l; file_path := None |} |}
    | Some d => {| heap := lists w; dataset := d |}
    end in
  let out := if truthy file_path then load env file_path σ else (Ok tt, σ) in
  (fst out, {| lists := heap (snd out); _instance := Some (dataset (snd out)) |}).

(** The installed instance refers to an existing list object. *)
Definition world_wf (w : world) : Prop :=
  match _instance w with
  | Some d => is_Some (lists w !! questions d)
  | None => True
  end.

(** The questions of the installed instance. *)
Definition world_questions (w : world) : option (list Question) :=
  d ← _instance w; lists w !! questions d.

(** The state of a process that has not constructed a dataset yet. *)
Definition empty_world : world := {| lists := ∅; _instance := None |}.

(** The state of a process whose instance holds the three questions. *)
Definition world_three_questions : world :=
  {| lists := heap three_questions;
     _instance := Some (dataset three_questions) |}.

(** ** The callers in [app.py] *)

Module App.

(** The two dictionaries of [st.session_state] that the answer handlers
    update, keyed by question position. A list stored in them is only
    changed by [_toggle_option], which ends by storing it again under
    both dictionaries, so the dictionaries are modelled by value. *)
Record session := mkSession {
  answers : gmap nat (list string);
  selected_options : gmap nat (list string)
}.

(** [l.remove(x)]: the list without the first occurrence of [x]; [None]
    stands for the [ValueError] raised when [x] does not occur. *)
Fixpoint list_remove (x : string) (l : list string) : option (list string) :=
  match l with
  | [] => None
  | y :: l' => if decide (x = y) then Some l' else cons y <$> list_remove x l'
  end.

(** [QuizView._toggle_option(question, question_index, option)]; [None]
    stands for a [KeyError] or [ValueError]. *)
Definition _toggle_option (q : Question) (question_index : nat)
    (opt : string) (s : session) : option session :=
  let so :=
    match selected_options s !! question_index with
    | None => <[question_index := []]> (selected_options s)
    | Some _ => selected_options s
    end in
  so' ← (if is_single q then
           Some (<[question_index := [opt]]> so)
         else
           cur ← so !! question_index;
           if bool_decide (opt ∈ cur) then
             cur' ← list_remove opt cur;
             Some (<[question_index := cur']> so)
           else
             Some (<[question_index := cur ++ [opt]]> so));
  sel ← so' !! question_index;
  Some {| answers := <[question_index := sel]> (answers s);
          selected_options := so' |}.

(** One iteration of the loop that opens [finish_quiz]. *)
Definition finish_step (s : session) (i : nat) : session :=
  match selected_options s !! i with
  | Some sel => {| answers := <[i := sel]> (answers s);
                   selected_options := selected_options s |}
  | None =>
      match answers s !! i with
      | None => {| answers := <[i := []]> (answers s);
                   selected_options := selected_options s |}
      | Some _ => s
      end
  end.

(** [for i in range(len(quiz))] of [finish_quiz], for a quiz of [n]
    questions. *)
Definition finish_loop (n : nat) (s : session) : session :=
  foldl finish_step s (seq 0 n).

(** A Python [dict] with string keys, in insertion order. *)
Definition dict (V : Type) : Type := list (string * V).

(** [d[k]]; [None] stands for [KeyError]. *)
Fixpoint dict_get {V} (k : string) (d : dict V) : option V :=
  match d with
  | [] => None
  | (k', v) :: d' => if decide (k = k') then Some v else dict_get k d'
  end.

(** [d[k] = v]: an existing key keeps its place, a new key goes last. *)
Fixpoint dict_set {V} (k : string) (v : V) (d : dict V) : dict V :=
  match d with
  | [] => [(k, v)]
  | (k', v') :: d' =>
      if decide (k = k') then (k, v) :: d' else (k', v') :: dict_set k v d'
  end.

(** [get_feedback(score)]. *)
Definition get_feedback (score : Q) : string * string :=
  if Qle_bool 90 score then ("🎉 Excellent !", "#10b981")
  else if Qle_bool 75 score then ("👍 Très bien !", "#22c55e")
  else if Qle_bool 60 score then ("😊 Bon travail", "#84cc16")
  else if Qle_bool 50 score then ("🙂 Pas mal", "#eab308")
  else if Qle_bool 40 score then ("🤔 Peut mieux faire", "#f59e0b")
  else if Qle_bool 25 score then ("😕 Continue tes efforts", "#f97316")
  else ("😞 À revoir", "#ef4444").

(** One entry of the list returned by [calculate_module_stats]. *)
Record module_stat := mkModuleStat {
  module : string;
  score : Q;
  count : nat;
  feedback : string * string
}.

(** The modules a question counts for: its tags, or ['Général'] when it
    has none. *)
Definition modules_of (q : Question) : list string :=
  match tags q with
  | [] => ["Général"]
  | t :: ts => t :: ts
  end.

(** The body of [for module in modules] for question [i]. *)
Definition add_module (per_question : list QuestionResult) (i : nat)
    (acc : dict Q * dict nat) (m : string) : option (dict Q * dict nat) :=
  let '(module_scores, module_counts) := acc in
  let '(module_scores, module_counts) :=
    match dict_get m module_scores with
    | None => (dict_set m 0%Q module_scores, dict_set m 0%nat module_counts)
    | Some _ => (module_scores, module_counts)
    end in
  s ← dict_get m module_scores;
  r ← per_question !! i;
  let module_scores := dict_set m (s + res_score r)%Q module_scores in
  c ← dict_get m module_counts;
  let module_counts := dict_set m (c + 1)%nat module_counts in
  Some (module_scores, module_counts).

(** [for module in modules], in the option monad. *)
Fixpoint add_modules (per_question : list QuestionResult) (i : nat)
    (acc : dict Q * dict nat) (ms : list string)
    : option (dict Q * dict nat) :=
  match ms with
  | [] => Some acc
  | m :: ms' =>
      acc' ← add_module per_question i acc m;
      add_modules per_question i acc' ms'
  end.

(** [for i, question in enumerate(questions)], started at index [i]. *)
Fixpoint stats_loop (per_question : list QuestionResult) (i : nat)
    (questions : list Question) (acc : dict Q * dict nat)
    : option (dict Q * dict nat) :=
  match questions with
  | [] => Some acc
  | q :: rest =>
      acc' ← add_modules per_question i acc (modules_of q);
      stats_loop per_question (S i) rest acc'
  end.

(** [for module in module_scores], building [module_stats]. *)
Fixpoint build_stats (keys : dict Q) (module_scores : dict Q)
    (module_counts : dict nat) : option (list module_stat) :=
  match keys with
  | [] => Some []
  | (m, _) :: keys' =>
      s ← dict_get m module_scores;
      c ← dict_get m module_counts;
      avg_score ← match c with
                  | O => None
                  | S _ => Some (s / inject_Z (Z.of_nat c) * 100)%Q
                  end;
      rest ← build_stats keys' module_scores module_counts;
      Some ({| module := m; score := avg_score; count := c;
               feedback := get_feedback avg_score |} :: rest)
  end.

(** [sorted(l, key=lambda x: x['score'], reverse=True)]: the stable sort
    by decreasing score, as insertion from the right. *)
Fixpoint insert_desc (x : module_stat) (l : list module_stat)
    : list module_stat :=
  match l with
  | [] => [x]
  | y :: l' =>
      match (score x ?= score y)%Q with
      | Lt => y :: insert_desc x l'
      | _ => x :: y :: l'
      end
  end.

Definition sorted_desc (l : list module_stat) : list module_stat :=
  foldr insert_desc [] l.

(** [QuizView.calculate_module_stats(questions, results)], on the
    ['per_question'] list of [results]; [None] stands for the
    [IndexError], [KeyError] or [ZeroDivisionError] of its lookups and
    division. *)
Definition calculate_module_stats (questions : list Question)
    (per_question : list QuestionResult) : option (list module_stat) :=
  acc ← stats_loop per_question 0 questions ([], []);
  let '(module_scores, module_counts) := acc in
  module_stats ← build_stats module_scores module_scores module_counts;
  Some (sorted_desc module_stats).

End App.

(** The pairs (module, score) that [calculate_module_stats] adds up, in
    the order of its two loops, for the questions from position [i] on:
    question [i] contributes its score once for each of its modules. *)
Fixpoint module_events (per_question : list QuestionResult) (i : nat)
    (questions : list Question) : list (string * Q) :=
  match questions with
  | [] => []
  | q :: rest =>
      map (fun m => (m, default 0%Q (res_score <$> per_question !! i)))
          (App.modules_of q)
      ++ module_events per_question (S i) rest
  end.

(** The scores recorded for module [m] in a list of such pairs. *)
Definition scores_for (m : string) (events : list (string * Q)) : list Q :=
  map snd (filter (fun e => fst e = m) events).

(** The keys of a dictionary, in insertion order. *)
Definition keys {V} (d : App.dict V) : list string := map fst d.

(** What the two dictionaries of [calculate_module_stats] hold after
    the pairs [events] have been added. *)
Definition stats_inv (events : list (string * Q))
    (module_scores : App.dict Q) (module_counts : App.dict nat) : Prop :=
  keys module_scores = keys module_counts /\
  NoDup (keys module_scores) /\
  (forall m, m ∈ keys module_scores <-> m ∈ map fst events) /\
  (forall m s, App.dict_get m module_scores = Some s ->
               (s == Qsum (scores_for m events))%Q) /\
  (forall m c, App.dict_get m module_counts = Some c ->
               c = length (scores_for m events)).

(** A list of module statistics in decreasing order of score. *)
Definition sorted_by_score (l : list App.module_stat) : Prop :=
  StronglySorted (fun a b => (App.score b <= App.score a)%Q) l.

(** The entry of module [module st] says what the pairs [events] add up
    to: the number of scores recorded for the module, their average as
    a percentage, and the feedback for that average. *)
Definition stat_for (events : list (string * Q)) (st : App.module_stat) : Prop :=
  App.count st = length (scores_for (App.module st) events) /\
  (1 <= App.count st)%nat /\
  (App.score st ==
     Qsum (scores_for (App.module st) events)
       / inject_Z (Z.of_nat (App.count st)) * 100)%Q /\
  App.feedback st = App.get_feedback (App.score st).

(** * Properties *)

(** ** Python primitives *)

Lemma max_zero_cases (x : Q) :
  (x <= 0 /\ Py.max 0 x = 0)%Q \/ (0 < x /\ Py.max 0 x = x)%Q.
Proof.
  unfold Py.max. destruct (Qcompare_spec 0 x) as [H|H|H].
  - left. split; [rewrite <- H; apply Qle_refl | reflexivity].
  - right. split; [exact H | reflexivity].
  - left. split; [apply Qlt_le_weak; exact H | reflexivity].
Qed.

Lemma max_zero_Qmax (x : Q) : (Py.max 0 x == Qmax 0 x)%Q.
Proof.
  destruct (max_zero_cases x) as [[H ->]|[H ->]].
  - symmetry. apply Q.max_l. exact H.
  - symmetry. apply Q.max_r. apply Qlt_le_weak. exact H.
Qed.

Lemma max_zero_nonneg (x : Q) : (0 <= Py.max 0 x)%Q.
Proof.
  destruct (max_zero_cases x) as [[H ->]|[H ->]].
  - apply Qle_refl.
  - apply Qlt_le_weak. exact H.
Qed.

Lemma truediv_pos (a b : nat) :
  (0 < b)%nat -> truediv a b = Ok (ratio a b).
Proof. destruct b; [lia | reflexivity]. Qed.

Lemma ratio_nonneg (a b : nat) : (0 <= ratio a b)%Q.
Proof.
  unfold ratio. destruct b as [|b].
  - unfold Qdiv, Qinv. simpl. rewrite Qmult_0_r. apply Qle_refl.
  - apply Qle_shift_div_l.
    + replace 0%Q with (inject_Z 0) by reflexivity.
      rewrite <- Zlt_Qlt. lia.
    + rewrite Qmult_0_l. replace 0%Q with (inject_Z 0) by reflexivity.
      rewrite <- Zle_Qle. lia.
Qed.

Lemma ratio_le_1 (a b : nat) : (a <= b)%nat -> (ratio a b <= 1)%Q.
Proof.
  intros Hab. unfold ratio. destruct b as [|b].
  - unfold Qdiv, Qinv. simpl. rewrite Qmult_0_r. discriminate.
  - apply Qle_shift_div_r.
    + replace 0%Q with (inject_Z 0) by reflexivity.
      rewrite <- Zlt_Qlt. lia.
    + rewrite Qmult_1_l. rewrite <- Zle_Qle. lia.
Qed.

(** ** Cardinalities of Python sets built from lists *)

Lemma size_set_card (l : list string) :
  size (list_to_set l : gset string) = card l.
Proof.
  unfold card.
  rewrite <- (size_list_to_set (C := gset string) (remove_dups l))
    by apply NoDup_remove_dups.
  f_equal. apply set_eq. intros x.
  rewrite !elem_of_list_to_set, elem_of_remove_dups. reflexivity.
Qed.

Lemma size_inter_card (c s : list string) :
  size ((list_to_set c : gset string) ∩ list_to_set s) = card_inter c s.
Proof.
  unfold card_inter.
  rewrite <- (size_list_to_set (C := gset string)
                (filter (fun x => x ∈ s) (remove_dups c)))
    by (apply NoDup_filter, NoDup_remove_dups).
  f_equal. apply set_eq. intros x.
  rewrite elem_of_intersection, !elem_of_list_to_set, list_elem_of_filter,
    elem_of_remove_dups.
  tauto.
Qed.

Lemma size_diff_card (s c : list string) :
  size ((list_to_set s : gset string) ∖ list_to_set c) = card_diff s c.
Proof.
  unfold card_diff.
  rewrite <- (size_list_to_set (C := gset string)
                (filter (fun x => x ∉ c) (remove_dups s)))
    by (apply NoDup_filter, NoDup_remove_dups).
  f_equal. apply set_eq. intros x.
  rewrite elem_of_difference, !elem_of_list_to_set, list_elem_of_filter,
    elem_of_remove_dups.
  tauto.
Qed.

Lemma card_zero_nil (l : list string) : card l = 0%nat <-> l = [].
Proof.
  split.
  - intros H. rewrite <- size_set_card in H. apply size_empty_inv in H.
    destruct l as [|x l]; [reflexivity|].
    exfalso. apply (not_elem_of_empty (C := gset string) x).
    rewrite <- H. set_solver.
  - intros ->. reflexivity.
Qed.

Lemma card_inter_nil_r (c : list string) : card_inter c [] = 0%nat.
Proof.
  unfold card_inter. induction (remove_dups c) as [|x l IH]; [reflexivity|].
  rewrite filter_cons. destruct (decide (x ∈ [])) as [H|_]; [inversion H | exact IH].
Qed.

Lemma card_inter_le (c s : list string) : (card_inter c s <= card c)%nat.
Proof. unfold card_inter, card. apply length_filter. Qed.

(** ** Single-choice scoring *)

Lemma score_single_cases (correct selected : list string) :
  ((exists x, selected = [x] /\ x ∈ correct) /\
   score_single correct selected = Ok 1%Q) \/
  ((~ exists x, selected = [x] /\ x ∈ correct) /\
   score_single correct selected = Ok 0%Q).
Proof.
  unfold score_single.
  destruct correct as [|c cs].
  - right. split; [|reflexivity]. intros (x & _ & Hx). inversion Hx.
  - destruct selected as [|x [|y sel]]; simpl.
    + right. split; [|reflexivity]. intros (x & Hx & _). discriminate.
    + destruct (decide (x ∈ c :: cs)) as [Hin|Hnin].
      * left. rewrite (bool_decide_eq_true_2 _ Hin). eauto.
      * right. rewrite (bool_decide_eq_false_2 _ Hnin).
        split; [|reflexivity].
        intros (z & Hz & Hz'). injection Hz as ->. contradiction.
    + right. split; [|reflexivity]. intros (z & Hz & _). discriminate.
Qed.

(** C2. [score_single] returns 1.0 exactly when the selection is a
    single option that belongs to the correct answers; in every other
    case (no selection, several selections, a selection that is not
    correct, no correct answer at all) it returns 0.0, and it never
    returns anything but 1.0 or 0.0. *)
Theorem score_single_spec (correct selected : list string) :
  (score_single correct selected = Ok 1%Q <->
     exists x, selected = [x] /\ x ∈ correct) /\
  (score_single correct selected = Ok 0%Q <->
     ~ exists x, selected = [x] /\ x ∈ correct) /\
  (score_single correct selected = Ok 1%Q \/
   score_single correct selected = Ok 0%Q) /\
  (selected = [] -> score_single correct selected = Ok 0%Q) /\
  ((1 < length selected)%nat -> score_single correct selected = Ok 0%Q) /\
  (correct = [] -> score_single correct selected = Ok 0%Q).
Proof.
  destruct (score_single_cases correct selected) as [[H ->]|[H ->]].
  - split; [tauto|]. split; [split; [discriminate | tauto]|].
    split; [left; reflexivity|]. split; [|split].
    + intros ->. destruct H as (x & Hx & _). discriminate.
    + intros Hlen. destruct H as (x & -> & _). simpl in Hlen. lia.
    + intros ->. destruct H as (x & _ & Hx). inversion Hx.
  - split; [split; [discriminate | tauto]|]. split; [tauto|].
    split; [right; reflexivity|]. repeat split; reflexivity.
Qed.

Lemma score_single_spec_witness :
  score_single ["Paris"] ["Paris"] = Ok 1%Q /\
  score_single ["Paris"] ["Lyon"; "Paris"] = Ok 0%Q /\
  score_single [] ["Paris"] = Ok 0%Q.
Proof.
  split; [|split].
  - apply (proj1 (score_single_spec ["Paris"] ["Paris"])).
    exists "Paris". split; [reflexivity | apply list_elem_of_here].
  - destruct (score_single_spec ["Paris"] ["Lyon"; "Paris"])
      as (_ & _ & _ & _ & Hmany & _).
    apply Hmany. simpl. lia.
  - destruct (score_single_spec [] ["Paris"]) as (_ & _ & _ & _ & _ & Hnone).
    apply Hnone. reflexivity.
Defined.

(** ** Multiple-choice scoring *)

Lemma score_multiple_nil (selected : list string) :
  score_multiple [] selected = Ok 0%Q.
Proof. reflexivity. Qed.

Lemma score_multiple_cons (c : string) (cs selected : list string) :
  score_multiple (c :: cs) selected =
    Ok (Py.max 0 (ratio (card_inter (c :: cs) selected) (card (c :: cs))
                  - ratio (card_diff selected (c :: cs)) (card (c :: cs)))%Q).
Proof.
  unfold score_multiple.
  rewrite size_set_card, size_inter_card, size_diff_card.
  assert (Hpos : (0 < card (c :: cs))%nat).
  { destruct (card (c :: cs)) eqn:E; [|lia].
    apply card_zero_nil in E. discriminate. }
  destruct (Nat.eqb_spec (card (c :: cs)) 0) as [E|_]; [lia|].
  rewrite !truediv_pos by exact Hpos. reflexivity.
Qed.

Lemma score_multiple_total (correct selected : list string) :
  exists q, score_multiple correct selected = Ok q /\ (0 <= q <= 1)%Q.
Proof.
  destruct correct as [|c cs].
  - exists 0%Q. split; [reflexivity|]. split; discriminate.
  - rewrite score_multiple_cons. eexists. split; [reflexivity|].
    split; [apply max_zero_nonneg|].
    pose proof (ratio_le_1 _ _ (card_inter_le (c :: cs) selected)) as H1.
    pose proof (ratio_nonneg (card_diff selected (c :: cs)) (card (c :: cs))) as H2.
    destruct (max_zero_cases
                (ratio (card_inter (c :: cs) selected) (card (c :: cs))
                 - ratio (card_diff selected (c :: cs)) (card (c :: cs))))
      as [[_ ->]|[_ ->]]; [discriminate | lra].
Qed.

(** C1. [score_multiple] returns the partial-credit value
    max(0, |correct ∩ selected| / |correct| − |selected − correct| / |correct|)
    whenever there is at least one correct answer, and 0.0 when there is
    none; the value is never negative (and never above 1). *)
Theorem score_multiple_spec (correct selected : list string) :
  exists q,
    score_multiple correct selected = Ok q /\
    (q == match correct with
          | [] => 0
          | _ :: _ => partial_credit correct selected
          end)%Q /\
    (0 <= q)%Q /\ (q <= 1)%Q.
Proof.
  destruct (score_multiple_total correct selected) as (q & Hq & H0 & H1).
  exists q. split; [exact Hq|]. split; [|split; assumption].
  destruct correct as [|c cs].
  - rewrite score_multiple_nil in Hq. injection Hq as <-. reflexivity.
  - rewrite score_multiple_cons in Hq. injection Hq as <-.
    unfold partial_credit. apply max_zero_Qmax.
Qed.

(** Scenario C of the specification. *)
Example score_multiple_scenario_C :
  (exists q, score_multiple ["A"; "B"] ["A"; "B"] = Ok q /\ q == 1)%Q /\
  (exists q, score_multiple ["A"; "B"] ["A"] = Ok q /\ q == 1 # 2)%Q /\
  (exists q, score_multiple ["A"; "B"] ["A"; "B"; "C"] = Ok q /\ q == 1 # 2)%Q /\
  score_multiple ["A"; "B"] ["C"; "D"] = Ok 0%Q.
Proof.
  repeat split; try (eexists; split; [vm_compute; reflexivity | reflexivity]).
Qed.

(** C10. [score_multiple] depends on the selection only through the set
    of selected options: two selections with the same members score the
    same, in particular a selection and its duplicate-free version, and
    a selection and any reordering of it. *)
Theorem score_multiple_selected_set (correct selected selected' : list string)
    (Hsame : forall x, x ∈ selected <-> x ∈ selected') :
  score_multiple correct selected = score_multiple correct selected' /\
  score_multiple correct (remove_dups selected) = score_multiple correct selected /\
  score_multiple correct (selected ++ selected) = score_multiple correct selected /\
  (forall l, l ≡ₚ selected ->
     score_multiple correct l = score_multiple correct selected).
Proof.
  assert (Hset : forall s s' : list string,
             (forall x, x ∈ s <-> x ∈ s') ->
             (list_to_set s : gset string) = list_to_set s').
  { intros s s' H. apply set_eq. intros x.
    rewrite !elem_of_list_to_set. apply H. }
  assert (Hgen : forall s s' : list string,
             (forall x, x ∈ s <-> x ∈ s') ->
             score_multiple correct s = score_multiple correct s').
  { intros s s' H. unfold score_multiple. rewrite (Hset s s' H). reflexivity. }
  repeat split.
  - apply Hgen, Hsame.
  - apply Hgen. intros x. apply elem_of_remove_dups.
  - apply Hgen. intros x. rewrite elem_of_app. tauto.
  - intros l Hl. apply Hgen. intros x. rewrite Hl. reflexivity.
Qed.

Lemma score_multiple_selected_set_witness :
  score_multiple ["A"; "B"] ["B"; "A"; "B"] = score_multiple ["A"; "B"] ["A"; "B"].
Proof.
  assert (Hsame : forall x : string,
             x ∈ ["B"; "A"; "B"] <-> x ∈ ["A"; "B"]).
  { intros x. rewrite !elem_of_cons, !elem_of_nil. tauto. }
  exact (proj1 (score_multiple_selected_set
                  ["A"; "B"] ["B"; "A"; "B"] ["A"; "B"] Hsame)).
Defined.

(** ** Quiz-level correction *)

Lemma score_question_total (q : Question) (selected : list string) :
  exists s, score_question q selected = Ok s /\ in_unit_interval s.
Proof.
  unfold score_question. destruct (is_single q).
  - destruct (score_single_cases (correct q) selected) as [[_ ->]|[_ ->]];
      eexists; (split; [reflexivity|]); split; discriminate.
  - destruct (score_multiple_total (correct q) selected) as (s & -> & Hs).
    exists s. split; [reflexivity | exact Hs].
Qed.

Lemma Qsum_bounds (l : list Q) :
  Forall in_unit_interval l ->
  (0 <= Qsum l /\ Qsum l <= inject_Z (Z.of_nat (length l)))%Q.
Proof.
  induction 1 as [|x l [Hx0 Hx1] _ [IH0 IH1]].
  - split; apply Qle_refl.
  - change (Qsum (x :: l)) with (x + Qsum l)%Q.
    change (length (x :: l)) with (S (length l)).
    rewrite Nat2Z.inj_succ, <- Z.add_1_r, inject_Z_plus.
    change (inject_Z 1) with 1%Q. lra.
Qed.

Lemma correct_loop_spec (answers : gmap nat (list string))
    (questions : list Question) :
  forall (i : nat) (acc : list QuestionResult) (total_points : Q),
  exists entries total,
    correct_loop answers i questions acc total_points
      = Ok (acc ++ entries, total) /\
    (total == total_points + Qsum (map res_score entries))%Q /\
    length entries = length questions /\
    Forall (fun e => in_unit_interval (res_score e)) entries /\
    (forall k q, questions !! k = Some q ->
       exists e, entries !! k = Some e /\ entry_for answers (i + k) q e).
Proof.
  induction questions as [|q rest IH]; intros i acc total_points.
  - exists [], total_points. simpl. rewrite app_nil_r.
    split; [reflexivity|]. split; [lra|]. split; [reflexivity|].
    split; [constructor|]. intros k q Hk. discriminate.
  - destruct (score_question_total q (default [] (answers !! i)))
      as (s & Hs & Hunit).
    simpl. rewrite Hs. simpl.
    set (entry := {| res_index := i; res_question := question q;
                     res_mode := mode q; res_correct := correct q;
                     res_selected := default [] (answers !! i);
                     res_score := s; res_max_score := 1%Q |}).
    destruct (IH (S i) (acc ++ [entry]) (total_points + s)%Q)
      as (entries & total & Hrun & Htot & Hlen & Hall & Hent).
    exists (entry :: entries), total.
    split; [rewrite Hrun, <- app_assoc; reflexivity|].
    split; [simpl; lra|].
    split; [simpl; lia|].
    split; [constructor; [exact Hunit | exact Hall]|].
    intros [|k] q' Hk; simpl in Hk.
    + injection Hk as <-. exists entry. split; [reflexivity|].
      rewrite Nat.add_0_r. unfold entry_for; simpl. tauto.
    + destruct (Hent k q' Hk) as (e & He & Hfor).
      exists e. split; [exact He|].
      replace (i + S k)%nat with (S i + k)%nat by lia. exact Hfor.
Qed.


Lemma correct_quiz_run (questions : list Question)
    (answers : gmap nat (list string)) :
  exists entries total,
    correct_quiz questions answers =
      Ok {| per_question := entries;
            total_score := match questions with
                           | [] => 0
                           | _ :: _ =>
                               total / inject_Z (Z.of_nat (length questions)) * 100
                           end%Q |} /\
    (total == Qsum (map res_score entries))%Q /\
    length entries = length questions /\
    Forall (fun e => in_unit_interval (res_score e)) entries /\
    (forall k q, questions !! k = Some q ->
       exists e, entries !! k = Some e /\ entry_for answers k q e).
Proof.
  destruct (correct_loop_spec answers questions 0 [] 0%Q)
    as (entries & total & Hrun & Htot & Hlen & Hall & Hent).
  exists entries, total. unfold correct_quiz. rewrite Hrun. simpl.
  split; [destruct questions; reflexivity|].
  split; [rewrite Htot; lra|].
  repeat split; assumption.
Qed.


(** Scenarios A and B of the specification. *)
Example correct_quiz_scenarios_A_B :
  let paris := {| question := "Capitale ?"; choices := ["Paris"; "Lyon"];
                  correct := ["Paris"]; mode := "single"; tags := [] |} in
  (exists r, correct_quiz [paris] {[ 0%nat := ["Paris"] ]} = Ok r /\
             map res_score (per_question r) = [1%Q] /\
             (total_score r == 100)%Q) /\
  (exists r, correct_quiz [paris] {[ 0%nat := ["Lyon"] ]} = Ok r /\
             map res_score (per_question r) = [0%Q] /\
             (total_score r == 0)%Q).
Proof.
  split; (eexists; split; [vm_compute; reflexivity|]);
    (split; reflexivity).
Qed.

(** C8. [correct_quiz] never raises, and a position without an entry in
    [answers] is corrected as an empty selection with the strategy of
    its question, which scores 0.0. *)
Theorem correct_quiz_missing_answer (questions : list Question)
    (answers : gmap nat (list string)) :
  exists r,
    correct_quiz questions answers = Ok r /\
    forall i q,
      questions !! i = Some q -> answers !! i = None ->
      exists e,
        per_question r !! i = Some e /\
        res_index e = i /\
        res_selected e = [] /\
        score_question q [] = Ok (res_score e) /\
        res_score e = 0%Q.
Proof.
  destruct (correct_quiz_run questions answers)
    as (entries & total & Hrun & _ & _ & _ & Hent).
  eexists. split; [exact Hrun|]. simpl.
  intros i q Hq Hnone.
  destruct (Hent i q Hq) as (e & He & Hidx & _ & _ & _ & Hsel & Hscore & _).
  rewrite Hnone in Hsel. simpl in Hsel. rewrite Hsel in Hscore.
  exists e. repeat split; try assumption.
  revert Hscore. unfold score_question. destruct (is_single q).
  - destruct (correct q); simpl; intros H; injection H as <-; reflexivity.
  - destruct (correct q) as [|c cs].
    + rewrite score_multiple_nil. intros H; injection H as <-; reflexivity.
    + rewrite score_multiple_cons. intros H; injection H as <-.
      rewrite card_inter_nil_r. change (card_diff [] (c :: cs)) with 0%nat.
      destruct (max_zero_cases
                  (ratio 0 (card (c :: cs)) - ratio 0 (card (c :: cs))))
        as [[_ ->]|[Hpos _]]; [reflexivity | lra].
Qed.

Lemma correct_quiz_missing_answer_witness :
  exists r e,
    correct_quiz [q_geo] ∅ = Ok r /\
    per_question r !! 0%nat = Some e /\
    res_selected e = [] /\ res_score e = 0%Q.
Proof.
  destruct (correct_quiz_missing_answer [q_geo] ∅) as (r & Hr & Hmiss).
  destruct (Hmiss 0%nat q_geo eq_refl (lookup_empty 0%nat))
    as (e & He & _ & Hsel & _ & Hscore).
  exists r, e. repeat split; assumption.
Defined.

(** ** The mode of a loaded record *)

Lemma is_single_mode (q : Question) :
  is_single q = true <-> mode q = "single".
Proof. unfold is_single. apply bool_decide_eq_true. Qed.

(** C4, as the code has it. A record without a mode is loaded with
    mode ["single"]; a record with a mode keeps it verbatim. A loaded
    question is scored by [correct_quiz] with [score_single] when the
    record's mode is missing or is ["single"], and with
    [score_multiple] for every other mode, recognized or not. *)
Theorem loaded_mode_strategy (it : Item) (questions : list Question)
    (answers : gmap nat (list string)) (i : nat)
    (Hq : questions !! i = Some (question_of_item it)) :
  mode (question_of_item it) = default "single" (item_mode it) /\
  exists r e,
    correct_quiz questions answers = Ok r /\
    per_question r !! i = Some e /\
    res_mode e = default "single" (item_mode it) /\
    (item_mode it = None \/ item_mode it = Some "single" ->
       Ok (res_score e) =
         score_single (correct (question_of_item it))
                      (default [] (answers !! i))) /\
    (forall m, item_mode it = Some m -> m <> "single" ->
       Ok (res_score e) =
         score_multiple (correct (question_of_item it))
                        (default [] (answers !! i))).
Proof.
  split; [reflexivity|].
  destruct (correct_quiz_run questions answers)
    as (entries & total & Hrun & _ & _ & _ & Hent).
  destruct (Hent i _ Hq) as (e & He & _ & _ & Hmode & _ & Hsel & Hscore & _).
  eexists; exists e. split; [exact Hrun|]. split; [exact He|].
  split; [exact Hmode|].
  rewrite Hsel in Hscore. unfold score_question in Hscore.
  split.
  - intros Hm.
    assert (Hs : is_single (question_of_item it) = true).
    { apply is_single_mode. simpl. destruct Hm as [-> | ->]; reflexivity. }
    rewrite Hs in Hscore. symmetry. exact Hscore.
  - intros m Hm Hne.
    assert (Hs : is_single (question_of_item it) = false).
    { apply not_true_is_false. rewrite is_single_mode.
      simpl. rewrite Hm. exact Hne. }
    rewrite Hs in Hscore. symmetry. exact Hscore.
Qed.

Lemma loaded_mode_strategy_witness :
  exists r e,
    correct_quiz [question_of_item checkbox_item] {[ 0%nat := ["A"; "E"] ]} = Ok r /\
    per_question r !! 0%nat = Some e /\
    res_mode e = "checkbox" /\
    Ok (res_score e) = score_multiple ["A"; "E"] ["A"; "E"].
Proof.
  destruct (loaded_mode_strategy checkbox_item
              [question_of_item checkbox_item]
              {[ 0%nat := ["A"; "E"] ]} 0 eq_refl)
    as (_ & r & e & Hr & He & Hmode & _ & Hmulti).
  exists r, e. repeat split; try assumption.
  apply (Hmulti "checkbox"); [reflexivity | discriminate].
Defined.

Lemma mode_defaults_to_single_counterexample :
  ~ mode_defaults_to_single checkbox_item /\
  mode (question_of_item checkbox_item) = "checkbox" /\
  (exists r,
     correct_quiz [question_of_item checkbox_item]
                  {[ 0%nat := ["A"; "E"] ]} = Ok r /\
     (Qsum (map res_score (per_question r)) == 1)%Q) /\
  score_single (correct (question_of_item checkbox_item)) ["A"; "E"] = Ok 0%Q.
Proof.
  split; [|split; [reflexivity|split]].
  - intros H. destruct H as [Hmode _].
    + intros [Hm | Hm]; discriminate Hm.
    + discriminate Hmode.
  - eexists. split; [vm_compute; reflexivity | reflexivity].
  - reflexivity.
Qed.

(** ** The store *)

Lemma fresh_unused (h : gmap loc (list Question)) : h !! fresh (dom h) = None.
Proof. apply not_elem_of_dom. apply is_fresh. Qed.

Lemma fresh_not_dataset (σ : store) :
  wf σ -> fresh (dom (heap σ)) <> questions (dataset σ).
Proof.
  intros [v Hv] Heq. rewrite <- Heq, fresh_unused in Hv. discriminate.
Qed.

Lemma wf_initial : wf initial_store.
Proof. eexists. reflexivity. Qed.

(** ** Filtering by tags *)

Lemma matches_intersects (tag_list : list string) (q : Question) :
  matches (list_to_set tag_list) q <-> intersects tag_list q.
Proof.
  unfold matches, intersects. rewrite size_non_empty_iff. split.
  - intros H. apply set_choose in H. destruct H as [t Ht].
    apply elem_of_intersection in Ht. destruct Ht as [H1 H2].
    apply elem_of_list_to_set in H1. apply elem_of_list_to_set in H2.
    exists t. split; assumption.
  - intros (t & H1 & H2) Hempty.
    apply (not_elem_of_empty (C := gset string) t). rewrite <- Hempty.
    apply elem_of_intersection. split; apply elem_of_list_to_set; assumption.
Qed.

Lemma get_questions_by_tags_run (tag_list : option (list string)) (σ : store) :
  get_questions_by_tags tag_list σ =
    (Ok (fresh (dom (heap σ))),
     {| heap := <[fresh (dom (heap σ)) := filtered tag_list (ds_questions σ)]>
                  (heap σ);
        dataset := dataset σ |}).
Proof.
  unfold get_questions_by_tags, bindM, get_self, read, alloc, filtered,
    ds_questions; simpl.
  destruct tag_list as [[|t ts]|]; try reflexivity.
  simpl. do 3 f_equal. apply list_filter_iff. intros q.
  apply (matches_intersects (t :: ts)).
Qed.

(** C6. [get_questions_by_tags] returns a new list holding, for a
    non-empty filter, exactly the questions that have a tag in the
    filter, in load order; for an empty or omitted filter, the whole
    question sequence in load order. The dataset is left as it was. *)
Theorem get_questions_by_tags_spec (tag_list : option (list string))
    (σ : store) (Hwf : wf σ) :
  exists l σ',
    get_questions_by_tags tag_list σ = (Ok l, σ') /\
    heap σ' !! l =
      Some match tag_list with
           | None | Some [] => ds_questions σ
           | Some (t :: ts) => filter (intersects (t :: ts)) (ds_questions σ)
           end /\
    l <> questions (dataset σ) /\
    dataset σ' = dataset σ /\
    ds_questions σ' = ds_questions σ.
Proof.
  rewrite get_questions_by_tags_run. eexists; eexists.
  split; [reflexivity|]. simpl.
  pose proof (fresh_not_dataset σ Hwf) as Hne.
  split; [apply lookup_insert_eq|].
  split; [exact Hne|]. split; [reflexivity|].
  unfold ds_questions; simpl. apply lookup_total_insert_ne. exact Hne.
Qed.

Lemma get_questions_by_tags_spec_witness :
  result_list (get_questions_by_tags (Some ["math"]) three_questions)
    = Ok [q_math; q_both] /\
  result_list (get_questions_by_tags (Some []) three_questions)
    = Ok [q_geo; q_math; q_both] /\
  result_list (get_questions_by_tags None three_questions)
    = Ok [q_geo; q_math; q_both].
Proof.
  assert (Hwf : wf three_questions) by (eexists; reflexivity).
  split; [|split].
  - destruct (get_questions_by_tags_spec (Some ["math"]) three_questions Hwf)
      as (l & σ' & -> & Hl & _).
    simpl. rewrite (lookup_total_correct _ _ _ Hl). reflexivity.
  - destruct (get_questions_by_tags_spec (Some []) three_questions Hwf)
      as (l & σ' & -> & Hl & _).
    simpl. rewrite (lookup_total_correct _ _ _ Hl). reflexivity.
  - destruct (get_questions_by_tags_spec None three_questions Hwf)
      as (l & σ' & -> & Hl & _).
    simpl. rewrite (lookup_total_correct _ _ _ Hl). reflexivity.
Defined.

(** ** Shuffling *)

Lemma insert_cons_perm {A} (x : list A) (j : nat) (b y : A) :
  x !! j = Some b -> b :: <[j := y]> x ≡ₚ y :: x.
Proof.
  revert j. induction x as [|z x IH]; intros [|j] Hj; simpl in Hj;
    try discriminate.
  - injection Hj as ->. simpl. apply Permutation_swap.
  - simpl. rewrite (Permutation_swap z b). rewrite (IH j Hj).
    apply Permutation_swap.
Qed.

Lemma insert_insert_perm {A} (x : list A) (i j : nat) (a b : A) :
  x !! i = Some a -> x !! j = Some b -> <[j := a]> (<[i := b]> x) ≡ₚ x.
Proof.
  revert i j. induction x as [|y x IH]; intros [|i] [|j] Hi Hj;
    simpl in Hi, Hj; try discriminate; simpl.
  - injection Hi as ->. reflexivity.
  - injection Hi as ->. apply insert_cons_perm. exact Hj.
  - injection Hj as ->. apply insert_cons_perm. exact Hi.
  - f_equiv. apply IH; assumption.
Qed.

Lemma swap_perm {A} (x : list A) (i j : nat) : swap x i j ≡ₚ x.
Proof.
  unfold swap. destruct (x !! i) as [a|] eqn:Hi; [|reflexivity].
  destruct (x !! j) as [b|] eqn:Hj; [|reflexivity].
  apply insert_insert_perm; assumption.
Qed.

Lemma shuffle_down_perm {A} (i : nat) (draws : list nat) (x : list A) :
  shuffle_down i draws x ≡ₚ x.
Proof.
  revert draws x. induction i as [|i IH]; intros draws x; [reflexivity|].
  cbn [shuffle_down]. rewrite IH. apply swap_perm.
Qed.

Lemma shuffle_list_perm {A} (draws : list nat) (x : list A) :
  shuffle_list draws x ≡ₚ x.
Proof. apply shuffle_down_perm. Qed.

Lemma shuffle_list_nil {A} (draws : list nat) : shuffle_list draws (@nil A) = [].
Proof. reflexivity. Qed.

(** ** Slicing *)

Lemma slice_to_min_len {A} (l : list A) (n : Z) :
  (0 <= n)%Z -> slice_to l (min_len n (length l)) = take (Z.to_nat n) l.
Proof.
  intros Hn. unfold slice_to, min_len.
  destruct (Z.leb_spec 0 (Z.min n (Z.of_nat (length l)))) as [_|H]; [|lia].
  destruct (Z.le_ge_cases n (Z.of_nat (length l))) as [Hle|Hge].
  - rewrite Z.min_l by exact Hle. reflexivity.
  - rewrite Z.min_r by exact Hge. rewrite Nat2Z.id.
    rewrite !take_ge; [reflexivity | lia | lia].
Qed.

(** ** Quiz generation *)

Lemma generate_run (tag_list : option (list string)) (n_questions : Z)
    (shuffle : bool) (draws : list nat) (σ : store) :
  let pool := filtered tag_list (ds_questions σ) in
  let shuffled := if shuffle then shuffle_list draws pool else pool in
  let h1 := <[fresh (dom (heap σ)) := shuffled]> (heap σ) in
  let quiz := match pool with
              | [] => []
              | _ :: _ => slice_to shuffled (min_len n_questions (length shuffled))
              end in
  generate tag_list n_questions shuffle draws σ =
    (Ok (fresh (dom h1)), {| heap := <[fresh (dom h1) := quiz]> h1;
                             dataset := dataset σ |}).
Proof.
  intros pool shuffled h1 quiz.
  unfold generate, bindM. rewrite get_questions_by_tags_run.
  fold pool. unfold read at 1. cbn [heap dataset].
  rewrite lookup_total_insert_eq.
  subst h1 quiz shuffled. destruct pool as [|q pool'] eqn:Hpool.
  - unfold alloc. cbn [heap dataset].
    destruct shuffle; reflexivity.
  - destruct shuffle.
    + unfold random_shuffle, bindM, read, write, alloc. cbn [heap dataset].
      rewrite lookup_total_insert_eq, insert_insert_eq, lookup_total_insert_eq.
      reflexivity.
    + unfold ret, read, alloc. cbn [heap dataset].
      rewrite lookup_total_insert_eq. reflexivity.
Qed.

Lemma result_list_get_questions_by_tags (tag_list : option (list string))
    (σ : store) :
  result_list (get_questions_by_tags tag_list σ)
    = Ok (filtered tag_list (ds_questions σ)).
Proof.
  rewrite get_questions_by_tags_run. cbn [result_list heap].
  rewrite lookup_total_insert_eq. reflexivity.
Qed.

Lemma result_list_generate (tag_list : option (list string)) (n_questions : Z)
    (shuffle : bool) (draws : list nat) (σ : store) :
  result_list (generate tag_list n_questions shuffle draws σ) =
    Ok (let pool := filtered tag_list (ds_questions σ) in
        let shuffled := if shuffle then shuffle_list draws pool else pool in
        match pool with
        | [] => []
        | _ :: _ => slice_to shuffled (min_len n_questions (length shuffled))
        end).
Proof.
  rewrite generate_run. cbn [result_list heap].
  rewrite lookup_total_insert_eq. reflexivity.
Qed.

(** C5. For a count that is not negative, [generate] returns a quiz of
    exactly min(count, size of the filtered pool) questions: the empty
    quiz when the pool is empty or the count is 0, and every question
    of the pool when the count reaches the pool size. It never raises.
    The quiz is a prefix of the pool put in some order, which is the
    load order when [shuffle] is false. *)
Theorem generate_length (tag_list : option (list string)) (n_questions : Z)
    (shuffle : bool) (draws : list nat) (σ : store) (pool : list Question)
    (Hn : (0 <= n_questions)%Z)
    (Hpool : result_list (get_questions_by_tags tag_list σ) = Ok pool) :
  exists l σ' quiz,
    generate tag_list n_questions shuffle draws σ = (Ok l, σ') /\
    heap σ' !! l = Some quiz /\
    length quiz = Nat.min (Z.to_nat n_questions) (length pool) /\
    (pool = [] -> quiz = []) /\
    (n_questions = 0%Z -> quiz = []) /\
    ((Z.of_nat (length pool) <= n_questions)%Z -> quiz ≡ₚ pool) /\
    (exists order,
       order ≡ₚ pool /\ quiz = take (Z.to_nat n_questions) order /\
       (shuffle = false -> order = pool)).
Proof.
  rewrite result_list_get_questions_by_tags in Hpool. injection Hpool as Hpool.
  rewrite generate_run. rewrite Hpool.
  set (shuffled := if shuffle then shuffle_list draws pool else pool).
  assert (Hperm : shuffled ≡ₚ pool).
  { unfold shuffled. destruct shuffle; [apply shuffle_list_perm | reflexivity]. }
  assert (Hquiz : match pool with
                  | [] => []
                  | _ :: _ => slice_to shuffled (min_len n_questions (length shuffled))
                  end = take (Z.to_nat n_questions) shuffled).
  { rewrite slice_to_min_len by exact Hn.
    destruct pool; [|reflexivity].
    apply Permutation_nil_r in Hperm. rewrite Hperm. symmetry. apply take_nil. }
  rewrite Hquiz.
  eexists; eexists; exists (take (Z.to_nat n_questions) shuffled).
  split; [reflexivity|]. cbn [heap].
  split; [apply lookup_insert_eq|].
  split; [rewrite length_take, (Permutation_length Hperm); reflexivity|].
  split; [intros ->; apply Permutation_nil_r in Hperm; rewrite Hperm; apply take_nil|].
  split; [intros ->; reflexivity|].
  split.
  - intros Hall. rewrite take_ge; [exact Hperm|].
    rewrite (Permutation_length Hperm). lia.
  - exists shuffled. split; [exact Hperm|]. split; [reflexivity|].
    intros ->. reflexivity.
Qed.

Lemma generate_length_witness :
  exists l σ' quiz,
    generate None 10 true [7; 4]%nat three_questions = (Ok l, σ') /\
    heap σ' !! l = Some quiz /\
    length quiz = 3%nat /\
    quiz ≡ₚ [q_geo; q_math; q_both].
Proof.
  destruct (generate_length None 10 true [7; 4]%nat three_questions
              [q_geo; q_math; q_both] ltac:(lia) eq_refl)
    as (l & σ' & quiz & Hrun & Hl & Hlen & _ & _ & Hall & _).
  exists l, σ', quiz. repeat split; try assumption.
  apply Hall. simpl. lia.
Defined.

(** Scenario D of the specification, with a random source that moves the
    last question to the front. *)
Example generate_scenario_D :
  result_list (generate (Some []) 10 true [0; 0]%nat three_questions)
    = Ok [q_math; q_both; q_geo].
Proof. reflexivity. Qed.

(** C9. [generate] leaves the dataset alone, also when it shuffles: the
    dataset object and its question sequence are the same before and
    after, every list object that existed before keeps its contents,
    the returned quiz is a new list object, and a later filtering or
    generation sees the sequence in load order, as if no quiz had been
    generated. *)
Theorem generate_frame (tag_list : option (list string)) (n_questions : Z)
    (shuffle : bool) (draws : list nat) (σ : store) (Hwf : wf σ) :
  exists l σ',
    generate tag_list n_questions shuffle draws σ = (Ok l, σ') /\
    dataset σ' = dataset σ /\
    ds_questions σ' = ds_questions σ /\
    wf σ' /\
    l <> questions (dataset σ) /\
    (forall l0 v, heap σ !! l0 = Some v -> heap σ' !! l0 = Some v) /\
    (forall tl,
       result_list (get_questions_by_tags tl σ')
         = result_list (get_questions_by_tags tl σ)) /\
    (forall tl n sh dr,
       result_list (generate tl n sh dr σ')
         = result_list (generate tl n sh dr σ)).
Proof.
  rewrite generate_run.
  set (shuffled := if shuffle then _ else _).
  set (l1 := fresh (dom (heap σ))).
  set (h1 := <[l1 := shuffled]> (heap σ)).
  set (l2 := fresh (dom h1)).
  set (quiz := match filtered tag_list (ds_questions σ) with
               | [] => []
               | _ :: _ => _
               end).
  assert (Hold : forall l0 v, heap σ !! l0 = Some v ->
                              (<[l2 := quiz]> h1) !! l0 = Some v).
  { intros l0 v Hv.
    assert (l0 <> l1).
    { intros ->. unfold l1 in Hv. rewrite fresh_unused in Hv. discriminate. }
    assert (Hh1 : h1 !! l0 = Some v).
    { unfold h1. rewrite lookup_insert_ne by congruence. exact Hv. }
    assert (l0 <> l2).
    { intros ->. unfold l2 in Hh1. rewrite fresh_unused in Hh1. discriminate. }
    rewrite lookup_insert_ne by congruence. exact Hh1. }
  destruct Hwf as [qs Hqs].
  assert (Hds : ds_questions {| heap := <[l2 := quiz]> h1; dataset := dataset σ |}
                = ds_questions σ).
  { unfold ds_questions. cbn [heap dataset].
    rewrite (lookup_total_correct _ _ _ (Hold _ _ Hqs)).
    rewrite (lookup_total_correct _ _ _ Hqs). reflexivity. }
  eexists; eexists. split; [reflexivity|]. cbn [heap dataset].
  split; [reflexivity|]. split; [exact Hds|].
  split; [exists qs; apply Hold; exact Hqs|].
  split.
  { intros Heq. pose proof (Hold _ _ Hqs) as H. rewrite <- Heq in H.
    assert (Hh1 : h1 !! l2 = None) by apply fresh_unused.
    assert (Hne : questions (dataset σ) <> l1).
    { intros E. rewrite E in Hqs. unfold l1 in Hqs.
      rewrite fresh_unused in Hqs. discriminate. }
    assert (Hq1 : h1 !! questions (dataset σ) = Some qs).
    { unfold h1. rewrite lookup_insert_ne by congruence. exact Hqs. }
    rewrite <- Heq in Hq1. rewrite Hh1 in Hq1. discriminate. }
  split; [exact Hold|]. split.
  - intros tl. rewrite !result_list_get_questions_by_tags, Hds. reflexivity.
  - intros tl n sh dr. rewrite !result_list_generate, Hds. reflexivity.
Qed.

Lemma generate_frame_witness :
  exists l σ',
    generate None 2 true [0; 0]%nat three_questions = (Ok l, σ') /\
    ds_questions σ' = [q_geo; q_math; q_both] /\
    result_list (get_questions_by_tags None σ') = Ok [q_geo; q_math; q_both].
Proof.
  assert (Hwf : wf three_questions) by (eexists; reflexivity).
  destruct (generate_frame None 2 true [0; 0]%nat three_questions Hwf)
    as (l & σ' & Hrun & _ & Hds & _ & _ & _ & Hlater & _).
  exists l, σ'. split; [exact Hrun|]. split; [exact Hds|].
  rewrite Hlater. reflexivity.
Defined.

(** ** Loading *)

Lemma entries_outcome_objects (its : list Item) :
  entries_outcome (map JObject its) = Ok its.
Proof.
  induction its as [|it its IH]; [reflexivity|].
  cbn [map entries_outcome]. rewrite IH. reflexivity.
Qed.




Lemma load_loop_run (l : loc) (entries : list json_entry) :
  forall (σ : store) (v : list Question),
    heap σ !! l = Some v ->
    exists out h',
      load_loop l entries σ = (out, {| heap := h'; dataset := dataset σ |}) /\
      (forall l', l' <> l -> h' !! l' = heap σ !! l') /\
      match entries_outcome entries with
      | Ok its => out = Ok tt /\ h' !! l = Some (v ++ map question_of_item its)
      | Raise e => out = Raise e /\ is_Some (h' !! l)
      end.
Proof.
  induction entries as [|[it| |] rest IH]; intros σ v Hv.
  - exists (Ok tt), (heap σ). destruct σ as [h d]. simpl in *.
    split; [reflexivity|]. split; [reflexivity|].
    rewrite app_nil_r. split; [reflexivity | exact Hv].
  - cbn [load_loop]. unfold bindM at 1.
    unfold append, bindM, read, write. cbn [heap dataset].
    rewrite (lookup_total_correct _ _ _ Hv).
    set (σ1 := {| heap := <[l := v ++ [question_of_item it]]> (heap σ);
                  dataset := dataset σ |}).
    destruct (IH σ1 (v ++ [question_of_item it]))
      as (out & h' & Hrun & Hother & Hres).
    { apply lookup_insert_eq. }
    exists out, h'. split; [exact Hrun|]. split.
    + intros l' Hne. rewrite (Hother l' Hne). unfold σ1. cbn [heap].
      apply lookup_insert_ne. congruence.
    + cbn [entries_outcome]. destruct (entries_outcome rest) as [its|e]; simpl.
      * destruct Hres as [-> Hl]. split; [reflexivity|].
        rewrite Hl, <- app_assoc. reflexivity.
      * exact Hres.
  - exists (Raise TypeError), (heap σ). destruct σ as [h d]. simpl in *.
    split; [reflexivity|]. split; [reflexivity|].
    split; [reflexivity | eexists; exact Hv].
  - exists (Raise AttributeError), (heap σ). destruct σ as [h d]. simpl in *.
    split; [reflexivity|]. split; [reflexivity|].
    split; [reflexivity | eexists; exact Hv].
Qed.

Lemma load_run (env : environment) (file_path : option string) (σ : store) :
  let fp := Pathlib.str (load_path env file_path) in
  let l := fresh (dom (heap σ)) in
  exists h',
    (forall l0 v, heap σ !! l0 = Some v -> h' !! l0 = Some v) /\
    match load_outcome (files env fp) with
    | Ok its =>
        load env file_path σ =
          (Ok tt, {| heap := h';
                     dataset := {| questions := l; file_path := Some fp |} |}) /\
        h' !! l = Some (map question_of_item its)
    | Raise e =>
        load env file_path σ = (Raise e, {| heap := h'; dataset := dataset σ |})
    end.
Proof.
  intros fp l. unfold load. fold fp.
  destruct (files env fp) as [|e| | |data]; cbn [load_outcome].
  1-4: exists (heap σ); (split; [tauto|]); destruct σ; reflexivity.
  unfold bindM, alloc, lift. cbv beta iota. fold l.
  set (σ1 := {| heap := <[l := []]> (heap σ); dataset := dataset σ |}).
  assert (Hold1 : forall l0 v, heap σ !! l0 = Some v -> heap σ1 !! l0 = Some v).
  { intros l0 v Hv. unfold σ1. cbn [heap].
    rewrite lookup_insert_ne; [exact Hv|].
    intros <-. unfold l in Hv. rewrite fresh_unused in Hv. discriminate. }
  destruct (iter_json data) as [entries|e]; cbn [Py.bind]; cbv beta iota.
  2: { exists (heap σ1). split; [exact Hold1 | reflexivity]. }
  destruct (load_loop_run l entries σ1 []) as (out & h' & Hrun & Hother & Hres).
  { apply lookup_insert_eq. }
  assert (Hold : forall l0 v, heap σ !! l0 = Some v -> h' !! l0 = Some v).
  { intros l0 v Hv. rewrite Hother; [apply Hold1; exact Hv|].
    intros ->. unfold l in Hv. rewrite fresh_unused in Hv. discriminate. }
  exists h'. split; [exact Hold|].
  rewrite Hrun.
  destruct (entries_outcome entries) as [its|e].
  - destruct Hres as [-> Hl]. split; [reflexivity | exact Hl].
  - destruct Hres as [-> _]. reflexivity.
Qed.





(** * Further properties of the scoring strategies *)

Lemma credit_times_denom (a b d : nat) :
  (0 < d)%nat ->
  ((ratio a d - ratio b d) * inject_Z (Z.of_nat d)
   == inject_Z (Z.of_nat a - Z.of_nat b))%Q.
Proof.
  intros Hd. unfold ratio, Z.sub. rewrite inject_Z_plus, inject_Z_opp.
  field. intros H. unfold Qeq in H. simpl in H. lia.
Qed.

Lemma denom_pos (d : nat) : (0 < d)%nat -> (0 < inject_Z (Z.of_nat d))%Q.
Proof.
  intros Hd. change 0%Q with (inject_Z 0). rewrite <- Zlt_Qlt. lia.
Qed.

Lemma credit_eq_1 (a b d : nat) :
  (0 < d)%nat -> (a <= d)%nat ->
  ((ratio a d - ratio b d == 1)%Q <-> a = d /\ b = 0%nat).
Proof.
  intros Hd Had. pose proof (credit_times_denom a b d Hd) as Hmul.
  pose proof (denom_pos d Hd) as Hpos.
  split.
  - intros H1. rewrite H1, Qmult_1_l in Hmul.
    unfold Qeq in Hmul. simpl in Hmul. lia.
  - intros [-> ->].
    apply (Qmult_inj_r _ _ (inject_Z (Z.of_nat d))).
    + intros H0. rewrite H0 in Hpos. discriminate.
    + rewrite Hmul, Qmult_1_l. simpl. rewrite Z.sub_0_r. reflexivity.
Qed.

Lemma credit_pos (a b d : nat) :
  (0 < d)%nat -> ((0 < ratio a d - ratio b d)%Q <-> (b < a)%nat).
Proof.
  intros Hd. pose proof (credit_times_denom a b d Hd) as Hmul.
  pose proof (denom_pos d Hd) as Hpos.
  rewrite <- (Qmult_lt_r 0 (ratio a d - ratio b d) _ Hpos).
  rewrite Hmul, Qmult_0_l. change 0%Q with (inject_Z 0).
  rewrite <- Zlt_Qlt. lia.
Qed.

Lemma length_filter_all {A} (P : A -> Prop) `{forall x, Decision (P x)}
    (l : list A) :
  length (filter P l) = length l <-> Forall P l.
Proof.
  induction l as [|x l IH].
  - split; [constructor | reflexivity].
  - rewrite filter_cons. destruct (decide (P x)) as [Hx|Hx]; simpl.
    + rewrite Forall_cons. split.
      * intros Hl. split; [exact Hx|]. apply IH. lia.
      * intros [_ Hl]. f_equal. apply IH. exact Hl.
    + pose proof (length_filter P l). rewrite Forall_cons. split; [lia | tauto].
Qed.

Lemma length_filter_none {A} (P : A -> Prop) `{forall x, Decision (P x)}
    (l : list A) :
  length (filter P l) = 0%nat <-> Forall (fun x => ~ P x) l.
Proof.
  induction l as [|x l IH].
  - split; [constructor | reflexivity].
  - rewrite filter_cons. destruct (decide (P x)) as [Hx|Hx]; simpl.
    + rewrite Forall_cons. split; [lia | tauto].
    + rewrite Forall_cons. rewrite IH. tauto.
Qed.

Lemma card_inter_full (c s : list string) :
  card_inter c s = card c <-> forall x, x ∈ c -> x ∈ s.
Proof.
  unfold card_inter, card. rewrite length_filter_all, Forall_forall.
  split; intros H x Hx; apply H; apply elem_of_remove_dups; exact Hx.
Qed.

Lemma card_diff_zero (s c : list string) :
  card_diff s c = 0%nat <-> forall x, x ∈ s -> x ∈ c.
Proof.
  unfold card_diff. rewrite length_filter_none, Forall_forall.
  split.
  - intros H x Hx. destruct (decide (x ∈ c)) as [Hc|Hc]; [exact Hc|].
    exfalso. apply (H x); [apply elem_of_remove_dups; exact Hx | exact Hc].
  - intros H x Hx Hn. apply Hn, H. apply elem_of_remove_dups. exact Hx.
Qed.

Lemma card_cons_pos (c : string) (cs : list string) : (0 < card (c :: cs))%nat.
Proof.
  destruct (card (c :: cs)) eqn:E; [|lia].
  apply card_zero_nil in E. discriminate.
Qed.

Lemma score_multiple_numeric (c : string) (cs selected : list string) :
  exists q,
    score_multiple (c :: cs) selected = Ok q /\
    ((q == 1)%Q <->
       card_inter (c :: cs) selected = card (c :: cs) /\
       card_diff selected (c :: cs) = 0%nat) /\
    ((card_inter (c :: cs) selected <= card_diff selected (c :: cs))%nat ->
       q = 0%Q).
Proof.
  rewrite score_multiple_cons. eexists. split; [reflexivity|].
  set (a := card_inter (c :: cs) selected).
  set (b := card_diff selected (c :: cs)).
  set (d := card (c :: cs)).
  assert (Hd : (0 < d)%nat) by apply card_cons_pos.
  assert (Had : (a <= d)%nat) by apply card_inter_le.
  pose proof (credit_pos a b d Hd) as Hpos.
  destruct (max_zero_cases (ratio a d - ratio b d)) as [[Hle ->]|[Hlt ->]].
  - split; [|reflexivity]. rewrite <- (credit_eq_1 a b d Hd Had).
    split; intros H1; lra.
  - split; [apply (credit_eq_1 a b d Hd Had)|].
    intros Hab. apply Hpos in Hlt. lia.
Qed.

(** X1. With at least one correct answer, [score_multiple] gives full
    credit exactly when the selected options are the correct ones: every
    correct option selected, no other option selected. *)
Theorem score_multiple_full_credit (c : string) (cs selected : list string) :
  exists q,
    score_multiple (c :: cs) selected = Ok q /\
    ((q == 1)%Q <-> forall x, x ∈ selected <-> x ∈ c :: cs).
Proof.
  destruct (score_multiple_numeric c cs selected) as (q & Hq & Hone & _).
  exists q. split; [exact Hq|].
  rewrite Hone, card_inter_full, card_diff_zero.
  split.
  - intros [H1 H2] x. split; [apply H2 | apply H1].
  - intros H. split; intros x Hx; apply H; exact Hx.
Qed.

Lemma score_multiple_full_credit_witness :
  exists q, score_multiple ["A"; "B"] ["B"; "A"] = Ok q /\ (q == 1)%Q.
Proof.
  destruct (score_multiple_full_credit "A" ["B"] ["B"; "A"]) as (q & Hq & Hone).
  exists q. split; [exact Hq|]. apply Hone.
  intros x. rewrite !elem_of_cons, !elem_of_nil. tauto.
Defined.

(** X2. With at least one correct answer, [score_multiple] is positive
    exactly when more correct options than wrong options were selected;
    in every other case the clamp returns 0.0. *)
Theorem score_multiple_positive (c : string) (cs selected : list string) :
  exists q,
    score_multiple (c :: cs) selected = Ok q /\
    ((0 < q)%Q <->
       (card_diff selected (c :: cs) < card_inter (c :: cs) selected)%nat) /\
    ((card_inter (c :: cs) selected <= card_diff selected (c :: cs))%nat ->
       q = 0%Q).
Proof.
  rewrite score_multiple_cons. eexists. split; [reflexivity|].
  pose proof (credit_pos (card_inter (c :: cs) selected)
                (card_diff selected (c :: cs)) (card (c :: cs))
                (card_cons_pos c cs)) as Hpos.
  destruct (max_zero_cases
              (ratio (card_inter (c :: cs) selected) (card (c :: cs))
               - ratio (card_diff selected (c :: cs)) (card (c :: cs))))
    as [[Hle ->]|[Hlt ->]].
  - split; [|reflexivity]. split; [intros H; lra|].
    intros H. apply Hpos in H. lra.
  - split; [exact Hpos|]. intros H. apply Hpos in Hlt. lia.
Qed.

Lemma score_multiple_positive_witness :
  score_multiple ["A"; "B"] ["C"; "A"; "D"] = Ok 0%Q.
Proof.
  destruct (score_multiple_positive "A" ["B"] ["C"; "A"; "D"])
    as (q & Hq & _ & Hzero).
  rewrite Hq. f_equal. apply Hzero. vm_compute. lia.
Defined.

(** X3. Both strategies use the list of correct answers only through its
    members: two lists of correct answers with the same members, in any
    order and with any repetitions, give the same score. *)
Theorem score_correct_members (correct correct' selected : list string)
    (Hsame : forall x, x ∈ correct <-> x ∈ correct') :
  score_single correct selected = score_single correct' selected /\
  score_multiple correct selected = score_multiple correct' selected.
Proof.
  split.
  - destruct (score_single_cases correct selected) as [[H ->]|[H ->]];
      destruct (score_single_cases correct' selected) as [[H' ->]|[H' ->]];
      try reflexivity; exfalso.
    + apply H'. destruct H as (x & Hx & Hin). exists x.
      split; [exact Hx | apply Hsame; exact Hin].
    + apply H. destruct H' as (x & Hx & Hin). exists x.
      split; [exact Hx | apply Hsame; exact Hin].
  - unfold score_multiple.
    replace (list_to_set correct' : gset string) with
      (list_to_set correct : gset string); [reflexivity|].
    apply set_eq. intros x. rewrite !elem_of_list_to_set. apply Hsame.
Qed.

Lemma score_correct_members_witness :
  score_multiple ["B"; "A"; "B"] ["A"] = score_multiple ["A"; "B"] ["A"].
Proof.
  assert (Hsame : forall x : string, x ∈ ["B"; "A"; "B"] <-> x ∈ ["A"; "B"]).
  { intros x. rewrite !elem_of_cons, !elem_of_nil. tauto. }
  exact (proj2 (score_correct_members ["B"; "A"; "B"] ["A"; "B"] ["A"] Hsame)).
Defined.

Lemma NoDup_all_equal {A} (x : A) (l : list A) :
  NoDup l -> x ∈ l -> (forall y, y ∈ l -> y = x) -> l = [x].
Proof.
  intros Hnd Hx Hall. destruct l as [|y [|z l]].
  - inversion Hx.
  - f_equal. apply Hall. apply list_elem_of_here.
  - exfalso. apply NoDup_cons in Hnd. destruct Hnd as [Hy _].
    apply Hy. rewrite (Hall y), (Hall z).
    + apply list_elem_of_here.
    + apply list_elem_of_further, list_elem_of_here.
    + apply list_elem_of_here.
Qed.

Lemma card_one_members (correct : list string) (x y : string) :
  card correct = 1%nat -> x ∈ correct -> y ∈ correct -> x = y.
Proof.
  intros Hone Hx Hy. rewrite <- size_set_card in Hone.
  apply size_1_elem_of in Hone. destruct Hone as [z Hz].
  assert (Hxz : x ∈ (list_to_set correct : gset string))
    by (apply elem_of_list_to_set; exact Hx).
  assert (Hyz : y ∈ (list_to_set correct : gset string))
    by (apply elem_of_list_to_set; exact Hy).
  rewrite Hz in Hxz, Hyz. apply elem_of_singleton in Hxz, Hyz. congruence.
Qed.

(** X4. On a question with exactly one correct answer, the two
    strategies give the same score to every selection without repeated
    options. *)
Theorem strategies_agree_one_correct (correct selected : list string)
    (Hone : card correct = 1%nat) (Hnd : NoDup selected) :
  exists q q',
    score_multiple correct selected = Ok q /\
    score_single correct selected = Ok q' /\
    (q == q')%Q.
Proof.
  destruct correct as [|c cs]; [discriminate Hone|].
  destruct (score_multiple_numeric c cs selected) as (q & Hq & Hq1 & Hzero).
  exists q. destruct (score_single_cases (c :: cs) selected) as [[H ->]|[H ->]].
  - exists 1%Q. split; [exact Hq|]. split; [reflexivity|].
    apply Hq1. rewrite card_inter_full, card_diff_zero.
    destruct H as (x & -> & Hx). split.
    + intros y Hy. apply list_elem_of_singleton.
      apply (card_one_members (c :: cs)); assumption.
    + intros y Hy. apply list_elem_of_singleton in Hy. subst y. exact Hx.
  - exists 0%Q. split; [exact Hq|]. split; [reflexivity|].
    rewrite Hzero; [reflexivity|].
    pose proof (card_inter_le (c :: cs) selected) as Hle. rewrite Hone in Hle.
    destruct (card_diff selected (c :: cs)) eqn:Hdiff; [|lia].
    destruct (card_inter (c :: cs) selected) eqn:Hinter; [lia|].
    exfalso. assert (Hfull : card_inter (c :: cs) selected = card (c :: cs)) by lia.
    pose proof (proj1 (card_inter_full _ _) Hfull) as Hall.
    pose proof (proj1 (card_diff_zero _ _) Hdiff) as Hnone.
    apply H. exists c. split; [|apply list_elem_of_here].
    apply NoDup_all_equal; [exact Hnd | apply Hall, list_elem_of_here |].
    intros y Hy. apply (card_one_members (c :: cs)).
    + exact Hone.
    + apply Hnone. exact Hy.
    + apply list_elem_of_here.
Qed.

Lemma strategies_agree_one_correct_witness :
  exists q q',
    score_multiple ["Paris"] ["Lyon"; "Paris"] = Ok q /\
    score_single ["Paris"] ["Lyon"; "Paris"] = Ok q' /\
    (q == q')%Q.
Proof.
  apply (strategies_agree_one_correct ["Paris"] ["Lyon"; "Paris"]).
  - reflexivity.
  - apply NoDup_cons. split.
    + rewrite list_elem_of_singleton. discriminate.
    + apply NoDup_singleton.
Defined.

(** * Further properties of quiz correction *)

Lemma correct_loop_ext (answers answers' : gmap nat (list string))
    (questions : list Question) :
  forall (i : nat) (acc : list QuestionResult) (total_points : Q),
    (forall k, (k < length questions)%nat ->
               default [] (answers !! (i + k)%nat)
               = default [] (answers' !! (i + k)%nat)) ->
    correct_loop answers i questions acc total_points
      = correct_loop answers' i questions acc total_points.
Proof.
  induction questions as [|q rest IH]; intros i acc total_points Hsame;
    [reflexivity|].
  cbn [correct_loop].
  assert (H0 : default [] (answers !! i) = default [] (answers' !! i)).
  { specialize (Hsame 0%nat). rewrite Nat.add_0_r in Hsame.
    apply Hsame. simpl. lia. }
  rewrite H0.
  destruct (score_question q (default [] (answers' !! i))) as [s|e];
    [|reflexivity].
  cbn [Py.bind]. apply IH. intros k Hk.
  replace (S i + k)%nat with (i + S k)%nat by lia. apply Hsame. simpl. lia.
Qed.

(** X5. [correct_quiz] reads [answers] only at the positions of the
    quiz, and does not tell a missing entry from an empty selection:
    two answer dictionaries whose selections agree at every position
    below [len(questions)], a missing entry counting as the empty list,
    give the same correction. Entries at other positions are ignored. *)
Theorem correct_quiz_answers_ext (questions : list Question)
    (answers answers' : gmap nat (list string))
    (Hsame : forall i, (i < length questions)%nat ->
                       default [] (answers !! i) = default [] (answers' !! i)) :
  correct_quiz questions answers = correct_quiz questions answers'.
Proof.
  unfold correct_quiz.
  rewrite (correct_loop_ext answers answers' questions 0 [] 0%Q); [reflexivity|].
  intros k Hk. apply Hsame. exact Hk.
Qed.

Lemma correct_quiz_answers_ext_witness :
  correct_quiz [q_geo; q_math] {[ 0%nat := ["Paris"]; 1%nat := []; 7%nat := ["Lyon"] ]}
    = correct_quiz [q_geo; q_math] {[ 0%nat := ["Paris"] ]}.
Proof.
  apply correct_quiz_answers_ext. intros i Hi. simpl in Hi.
  destruct i as [|[|i]]; [reflexivity | reflexivity | lia].
Defined.

Lemma Qsum_all_one (l : list Q) :
  Forall in_unit_interval l ->
  ((Qsum l == inject_Z (Z.of_nat (length l)))%Q
   <-> Forall (fun x => x == 1)%Q l).
Proof.
  induction 1 as [|x l [Hx0 Hx1] Hl IH].
  - split; [constructor | reflexivity].
  - destruct (Qsum_bounds l Hl) as [_ Hub].
    change (Qsum (x :: l)) with (x + Qsum l)%Q.
    change (length (x :: l)) with (S (length l)).
    rewrite Nat2Z.inj_succ, <- Z.add_1_r, inject_Z_plus.
    change (inject_Z 1) with 1%Q. rewrite Forall_cons, <- IH.
    split; [intros H; split; lra | intros [H1 H2]; lra].
Qed.

Lemma Qsum_all_zero (l : list Q) :
  Forall in_unit_interval l ->
  ((Qsum l == 0)%Q <-> Forall (fun x => x == 0)%Q l).
Proof.
  induction 1 as [|x l [Hx0 Hx1] Hl IH].
  - split; [constructor | reflexivity].
  - destruct (Qsum_bounds l Hl) as [Hlb _].
    change (Qsum (x :: l)) with (x + Qsum l)%Q.
    rewrite Forall_cons, <- IH.
    split; [intros H; split; lra | intros [H1 H2]; lra].
Qed.

(** X6. On a quiz with at least one question, the total is 100 exactly
    when every question scores 1.0, and 0 exactly when every question
    scores 0.0. *)
Theorem correct_quiz_extreme_totals (q : Question) (questions : list Question)
    (answers : gmap nat (list string)) :
  exists r,
    correct_quiz (q :: questions) answers = Ok r /\
    ((total_score r == 100)%Q <->
       Forall (fun e => res_score e == 1)%Q (per_question r)) /\
    ((total_score r == 0)%Q <->
       Forall (fun e => res_score e == 0)%Q (per_question r)).
Proof.
  destruct (correct_quiz_run (q :: questions) answers)
    as (entries & total & Hrun & Htot & Hlen & Hall & _).
  eexists. split; [exact Hrun|]. cbn [total_score per_question].
  set (n := inject_Z (Z.of_nat (length (q :: questions)))).
  assert (Hn : (0 < n)%Q) by (apply denom_pos; simpl; lia).
  assert (Hunit : Forall in_unit_interval (map res_score entries)).
  { apply Forall_map. exact Hall. }
  assert (Hmul : (total / n * n == total)%Q) by (field; lra).
  split.
  - rewrite <- (Forall_map res_score (fun x => x == 1)%Q).
    rewrite <- (Qsum_all_one _ Hunit), length_map, Hlen, <- Htot. fold n.
    split.
    + intros H. assert (H1 : (total / n == 1)%Q) by lra.
      rewrite H1 in Hmul. lra.
    + intros H. assert (H1 : (total / n == 1)%Q).
      { apply (Qmult_inj_r _ _ n); [lra|]. rewrite Hmul. lra. }
      lra.
  - rewrite <- (Forall_map res_score (fun x => x == 0)%Q).
    rewrite <- (Qsum_all_zero _ Hunit), <- Htot.
    split.
    + intros H. assert (H1 : (total / n == 0)%Q) by lra.
      rewrite H1 in Hmul. lra.
    + intros H. assert (H1 : (total / n == 0)%Q).
      { apply (Qmult_inj_r _ _ n); [lra|]. rewrite Hmul. lra. }
      lra.
Qed.

Lemma correct_quiz_extreme_totals_witness :
  exists r,
    correct_quiz [q_geo; q_math] {[ 0%nat := ["Paris"]; 1%nat := ["4"; "2"] ]}
      = Ok r /\
    (total_score r == 100)%Q.
Proof.
  destruct (correct_quiz_extreme_totals q_geo [q_math]
              {[ 0%nat := ["Paris"]; 1%nat := ["4"; "2"] ]})
    as (r & Hr & Hfull & _).
  exists r. split; [exact Hr|]. apply Hfull.
  revert Hr. vm_compute. intros Hr. injection Hr as <-.
  repeat constructor.
Defined.

(** X7. The per-question list of [correct_quiz] follows the quiz: it has
    one record per question, and the record at position [i] carries the
    index [i], the text, mode and correct answers of question [i], the
    selection found in [answers] at [i] (the empty list when there is
    none), the score of that selection under the strategy of the
    question, and the maximum 1.0. *)
Theorem correct_quiz_entries (questions : list Question)
    (answers : gmap nat (list string)) :
  exists r,
    correct_quiz questions answers = Ok r /\
    length (per_question r) = length questions /\
    forall i e,
      per_question r !! i = Some e ->
      exists q, questions !! i = Some q /\ entry_for answers i q e.
Proof.
  destruct (correct_quiz_run questions answers)
    as (entries & total & Hrun & _ & Hlen & _ & Hent).
  eexists. split; [exact Hrun|]. cbn [per_question].
  split; [exact Hlen|]. intros i e He.
  assert (Hi : (i < length questions)%nat).
  { rewrite <- Hlen. apply lookup_lt_Some in He. exact He. }
  apply lookup_lt_is_Some in Hi. destruct Hi as [q Hq].
  exists q. split; [exact Hq|].
  destruct (Hent i q Hq) as (e' & He' & Hfor).
  rewrite He in He'. injection He' as <-. exact Hfor.
Qed.

Lemma correct_quiz_entries_witness :
  exists r e,
    correct_quiz [q_geo; q_math] {[ 1%nat := ["2"] ]} = Ok r /\
    per_question r !! 1%nat = Some e /\
    entry_for {[ 1%nat := ["2"] ]} 1 q_math e.
Proof.
  destruct (correct_quiz_entries [q_geo; q_math] {[ 1%nat := ["2"] ]})
    as (r & Hr & Hlen & Hent).
  destruct (lookup_lt_is_Some_2 (per_question r) 1) as [e He].
  { rewrite Hlen. simpl. lia. }
  destruct (Hent 1%nat e He) as (q & Hq & Hfor).
  injection Hq as <-. exists r, e.
  split; [exact Hr | split; [exact He | exact Hfor]].
Defined.

(** * Further properties of quiz generation *)

Lemma slice_to_take {A} (l : list A) (k : Z) :
  exists n, slice_to l k = take n l.
Proof. unfold slice_to. destruct (0 <=? k)%Z; eexists; reflexivity. Qed.

Lemma generate_quiz_shape (tag_list : option (list string)) (n_questions : Z)
    (shuffle : bool) (draws : list nat) (σ : store) :
  exists l σ' order,
    generate tag_list n_questions shuffle draws σ = (Ok l, σ') /\
    order ≡ₚ filtered tag_list (ds_questions σ) /\
    (shuffle = false -> order = filtered tag_list (ds_questions σ)) /\
    heap σ' !! l = Some (slice_to order (min_len n_questions (length order))).
Proof.
  rewrite generate_run.
  set (pool := filtered tag_list (ds_questions σ)).
  set (shuffled := if shuffle then shuffle_list draws pool else pool).
  assert (Hperm : shuffled ≡ₚ pool).
  { unfold shuffled. destruct shuffle; [apply shuffle_list_perm | reflexivity]. }
  eexists; eexists; exists shuffled. split; [reflexivity|].
  split; [exact Hperm|].
  split; [intros ->; reflexivity|].
  cbn [heap]. rewrite lookup_insert_eq. f_equal.
  destruct pool as [|q pool']; [|reflexivity].
  apply Permutation_nil_r in Hperm. rewrite Hperm.
  destruct (slice_to_take (@nil Question) (min_len n_questions (length (@nil Question))))
    as [n ->].
  symmetry. apply take_nil.
Qed.

(** X8. A negative count does not give an empty quiz: [generate] then
    drops the last [-count] questions of the (shuffled) pool, so the
    quiz has [len(pool) + count] questions, or none when that is
    negative. *)
Theorem generate_negative_count (tag_list : option (list string))
    (n_questions : Z) (shuffle : bool) (draws : list nat) (σ : store)
    (pool : list Question)
    (Hn : (n_questions < 0)%Z)
    (Hpool : result_list (get_questions_by_tags tag_list σ) = Ok pool) :
  exists l σ' quiz order,
    generate tag_list n_questions shuffle draws σ = (Ok l, σ') /\
    heap σ' !! l = Some quiz /\
    order ≡ₚ pool /\
    quiz = take (length pool - Z.to_nat (- n_questions)) order /\
    length quiz = (length pool - Z.to_nat (- n_questions))%nat.
Proof.
  rewrite result_list_get_questions_by_tags in Hpool. injection Hpool as Hpool.
  destruct (generate_quiz_shape tag_list n_questions shuffle draws σ)
    as (l & σ' & order & Hrun & Hperm & _ & Hl).
  rewrite Hpool in Hperm.
  exists l, σ', (slice_to order (min_len n_questions (length order))), order.
  split; [exact Hrun|]. split; [exact Hl|]. split; [exact Hperm|].
  assert (Hslice : slice_to order (min_len n_questions (length order))
                   = take (length pool - Z.to_nat (- n_questions)) order).
  { unfold slice_to, min_len. rewrite Z.min_l by lia.
    destruct (Z.leb_spec 0 n_questions) as [H|_]; [lia|].
    f_equal. rewrite (Permutation_length Hperm). lia. }
  split; [exact Hslice|].
  rewrite Hslice, length_take, (Permutation_length Hperm). lia.
Qed.

Lemma generate_negative_count_witness :
  exists l σ' quiz,
    generate None (-1) false [] three_questions = (Ok l, σ') /\
    heap σ' !! l = Some quiz /\
    length quiz = 2%nat.
Proof.
  destruct (generate_negative_count None (-1) false [] three_questions
              [q_geo; q_math; q_both] ltac:(lia) eq_refl)
    as (l & σ' & quiz & order & Hrun & Hl & _ & _ & Hlen).
  exists l, σ', quiz. split; [exact Hrun|]. split; [exact Hl | exact Hlen].
Defined.

(** X9. Whatever the count and the random draws, a generated quiz is
    drawn from the filtered pool without repetition: it contains no
    question more often than the pool does, every question of it is a
    question of the dataset, and under a non-empty tag filter every
    question of it has one of the requested tags. *)
Theorem generate_within_pool (tag_list : option (list string))
    (n_questions : Z) (shuffle : bool) (draws : list nat) (σ : store) :
  exists l σ' quiz,
    generate tag_list n_questions shuffle draws σ = (Ok l, σ') /\
    heap σ' !! l = Some quiz /\
    quiz ⊆+ filtered tag_list (ds_questions σ) /\
    (NoDup (ds_questions σ) -> NoDup quiz) /\
    (forall q, q ∈ quiz ->
       q ∈ ds_questions σ /\
       forall t ts, tag_list = Some (t :: ts) -> intersects (t :: ts) q).
Proof.
  destruct (generate_quiz_shape tag_list n_questions shuffle draws σ)
    as (l & σ' & order & Hrun & Hperm & _ & Hl).
  destruct (slice_to_take order (min_len n_questions (length order)))
    as [n Hn].
  rewrite Hn in Hl. exists l, σ', (take n order).
  split; [exact Hrun|]. split; [exact Hl|].
  assert (Hsub : take n order ⊆+ filtered tag_list (ds_questions σ)).
  { rewrite <- Hperm. apply submseteq_take. }
  assert (Hpool : filtered tag_list (ds_questions σ) ⊆+ ds_questions σ).
  { apply sublist_submseteq. unfold filtered.
    destruct tag_list as [[|t ts]|]; try reflexivity. apply sublist_filter. }
  split; [exact Hsub|]. split.
  - intros Hnd. apply (sublist_NoDup _ order); [|apply sublist_take].
    rewrite Hperm. apply (sublist_NoDup _ (ds_questions σ)); [exact Hnd|].
    unfold filtered. destruct tag_list as [[|t ts]|]; try reflexivity.
    apply sublist_filter.
  - intros q Hq. pose proof (elem_of_submseteq _ _ _ Hq Hsub) as Hin.
    split; [exact (elem_of_submseteq _ _ _ Hin Hpool)|].
    intros t ts ->. cbn [filtered] in Hin.
    apply list_elem_of_filter in Hin. apply Hin.
Qed.

Lemma generate_within_pool_witness :
  exists l σ' quiz,
    generate (Some ["math"]) 1 true [3]%nat three_questions = (Ok l, σ') /\
    heap σ' !! l = Some quiz /\
    NoDup quiz /\
    quiz ⊆+ [q_math; q_both].
Proof.
  destruct (generate_within_pool (Some ["math"]) 1 true [3]%nat three_questions)
    as (l & σ' & quiz & Hrun & Hl & Hsub & Hnd & _).
  exists l, σ', quiz. split; [exact Hrun|]. split; [exact Hl|].
  split; [|exact Hsub].
  apply Hnd. change (ds_questions three_questions) with [q_geo; q_math; q_both].
  apply NoDup_ListNoDup. repeat constructor; simpl; intuition discriminate.
Defined.

(** * Further properties of the dataset *)

Lemma foldl_union_tags (qs : list Question) :
  forall (acc : gset string) (t : string),
    t ∈ foldl (fun (acc : gset string) q => acc ∪ list_to_set (tags q)) acc qs
    <-> t ∈ acc \/ exists q, q ∈ qs /\ t ∈ tags q.
Proof.
  induction qs as [|q qs IH]; intros acc t; cbn [foldl].
  - split; [tauto|]. intros [H|(q & Hq & _)]; [exact H | inversion Hq].
  - rewrite IH, elem_of_union, elem_of_list_to_set. split.
    + intros [[H|H]|(q' & Hq' & Ht)].
      * left; exact H.
      * right. exists q. split; [apply list_elem_of_here | exact H].
      * right. exists q'. split; [apply list_elem_of_further; exact Hq' | exact Ht].
    + intros [H|(q' & Hq' & Ht)].
      * left; left; exact H.
      * apply elem_of_cons in Hq'. destruct Hq' as [->|Hq'].
        -- left; right; exact Ht.
        -- right. exists q'. split; assumption.
Qed.

Lemma all_tags_run (σ : store) :
  exists S : gset string,
    all_tags σ = (Ok S, σ) /\
    forall t, t ∈ S <-> exists q, q ∈ ds_questions σ /\ t ∈ tags q.
Proof.
  eexists. split; [reflexivity|]. intros t.
  rewrite foldl_union_tags. split.
  - intros [H|H]; [|exact H]. exfalso. revert H. apply not_elem_of_empty.
  - intros H. right. exact H.
Qed.

Lemma filter_ext_in {A} (P Q : A -> Prop) `{forall x, Decision (P x)}
    `{forall x, Decision (Q x)} (l : list A) :
  (forall x, x ∈ l -> (P x <-> Q x)) -> filter P l = filter Q l.
Proof.
  induction l as [|x l IH]; intros Hext; [reflexivity|].
  rewrite !filter_cons.
  assert (Hx : P x <-> Q x) by (apply Hext, list_elem_of_here).
  assert (Hl : filter P l = filter Q l).
  { apply IH. intros y Hy. apply Hext, list_elem_of_further, Hy. }
  destruct (decide (P x)), (decide (Q x)); try tauto; rewrite Hl; reflexivity.
Qed.

(** X10. [all_tags] returns exactly the tags carried by at least one
    question of the dataset, and leaves the store as it was. *)
Theorem all_tags_spec (σ : store) :
  exists S : gset string,
    all_tags σ = (Ok S, σ) /\
    forall t, t ∈ S <-> exists q, q ∈ ds_questions σ /\ t ∈ tags q.
Proof.
  exists (foldl (fun (acc : gset string) q => acc ∪ list_to_set (tags q)) ∅
            (ds_questions σ)).
  split; [reflexivity|]. intros t. rewrite foldl_union_tags.
  split.
  - intros [Hempty|Hq]; [|exact Hq].
    exfalso. exact (not_elem_of_empty (C := gset string) t Hempty).
  - intros Hq. right. exact Hq.
Qed.

Lemma all_tags_spec_witness :
  exists S : gset string,
    all_tags three_questions = (Ok S, three_questions) /\
    "math" ∈ S.
Proof.
  destruct (all_tags_spec three_questions) as (S & Hrun & Hmem).
  exists S. split; [exact Hrun|]. apply Hmem.
  exists q_math. split.
  - change (ds_questions three_questions) with [q_geo; q_math; q_both].
    apply list_elem_of_further, list_elem_of_here.
  - apply list_elem_of_here.
Defined.

(** X11. A non-empty tag filter never returns a question without tags;
    a filter that lists every tag of [all_tags] returns exactly the
    questions that have at least one tag, in load order. Questions
    without tags are only reachable with the empty filter. *)
Theorem get_questions_by_all_tags (σ : store) (t : string) (ts : list string) :
  (exists pool,
     result_list (get_questions_by_tags (Some (t :: ts)) σ) = Ok pool /\
     Forall (fun q => tags q <> []) pool) /\
  ((forall S : gset string, fst (all_tags σ) = Ok S ->
                            forall x, x ∈ S -> x ∈ t :: ts) ->
   result_list (get_questions_by_tags (Some (t :: ts)) σ)
     = Ok (filter (fun q => tags q <> []) (ds_questions σ))).
Proof.
  rewrite result_list_get_questions_by_tags. cbn [filtered]. split.
  - eexists. split; [reflexivity|]. apply Forall_forall. intros q Hq.
    apply list_elem_of_filter in Hq. destruct Hq as [(x & _ & Hx) _].
    intros Hnil. rewrite Hnil in Hx. inversion Hx.
  - intros Hall. f_equal. apply filter_ext_in. intros q Hq.
    destruct (all_tags_run σ) as (S & Hrun & Hmem).
    specialize (Hall S). rewrite Hrun in Hall. specialize (Hall eq_refl).
    split.
    + intros (x & _ & Hx) Hnil. rewrite Hnil in Hx. inversion Hx.
    + intros Hne. destruct (tags q) as [|x xs] eqn:Htags; [contradiction|].
      assert (Hx : x ∈ tags q) by (rewrite Htags; apply list_elem_of_here).
      exists x. split; [|exact Hx].
      apply Hall, Hmem. exists q. split; [exact Hq | exact Hx].
Qed.

Lemma get_questions_by_all_tags_witness :
  result_list (get_questions_by_tags (Some ["geo"; "math"; "histoire"])
                 three_questions)
    = Ok [q_geo; q_math; q_both].
Proof.
  destruct (get_questions_by_all_tags three_questions "geo" ["math"; "histoire"])
    as [_ Hall].
  rewrite Hall; [reflexivity|].
  intros S HS x Hx. destruct (all_tags_run three_questions) as (S' & Hrun & Hmem).
  rewrite Hrun in HS. injection HS as <-.
  apply Hmem in Hx. destruct Hx as (q & Hq & Hx).
  change (ds_questions three_questions) with [q_geo; q_math; q_both] in Hq.
  rewrite !elem_of_cons, elem_of_nil in Hq.
  destruct Hq as [->|[->|[->|[]]]]; simpl in Hx;
    rewrite !elem_of_cons, elem_of_nil in Hx; rewrite !elem_of_cons; tauto.
Defined.

(** X12. A non-empty filter made only of tags that no question carries
    returns the empty list, not the whole dataset and not an error. *)
Theorem get_questions_by_unknown_tags (σ : store) (t : string)
    (ts : list string)
    (Hunknown : forall S : gset string, fst (all_tags σ) = Ok S ->
                                        forall x, x ∈ t :: ts -> x ∉ S) :
  result_list (get_questions_by_tags (Some (t :: ts)) σ) = Ok [].
Proof.
  rewrite result_list_get_questions_by_tags. cbn [filtered]. f_equal.
  destruct (all_tags_run σ) as (S & Hrun & Hmem).
  specialize (Hunknown S). rewrite Hrun in Hunknown.
  specialize (Hunknown eq_refl).
  apply length_zero_iff_nil, length_filter_none, Forall_forall.
  intros q Hq (x & Hx & Hxq). apply (Hunknown x Hx). apply Hmem.
  exists q. split; assumption.
Qed.

Lemma get_questions_by_unknown_tags_witness :
  result_list (get_questions_by_tags (Some ["histoire"]) three_questions)
    = Ok [].
Proof.
  apply get_questions_by_unknown_tags.
  intros S HS x Hx Hin. destruct (all_tags_run three_questions) as (S' & Hrun & Hmem).
  rewrite Hrun in HS. injection HS as <-.
  apply Hmem in Hin. destruct Hin as (q & Hq & Hxq).
  apply list_elem_of_singleton in Hx. subst x.
  change (ds_questions three_questions) with [q_geo; q_math; q_both] in Hq.
  rewrite !elem_of_cons, elem_of_nil in Hq.
  destruct Hq as [->|[->|[->|[]]]]; simpl in Hxq;
    rewrite !elem_of_cons, elem_of_nil in Hxq; intuition discriminate.
Defined.

(** X13. Filtering selects a subsequence: the result of
    [get_questions_by_tags] keeps the relative order of the dataset and
    repeats nothing, and a filter with more tags returns a list that
    contains the result of the smaller filter as a subsequence. *)
Theorem get_questions_by_tags_monotone (σ : store) (t t' : string)
    (ts ts' : list string)
    (Hsub : forall x, x ∈ t :: ts -> x ∈ t' :: ts') :
  exists small large,
    result_list (get_questions_by_tags (Some (t :: ts)) σ) = Ok small /\
    result_list (get_questions_by_tags (Some (t' :: ts')) σ) = Ok large /\
    small `sublist_of` large /\
    large `sublist_of` ds_questions σ.
Proof.
  rewrite !result_list_get_questions_by_tags. cbn [filtered].
  eexists; eexists. split; [reflexivity|]. split; [reflexivity|].
  split; [|apply sublist_filter].
  replace (filter (intersects (t :: ts)) (ds_questions σ))
    with (filter (intersects (t :: ts))
            (filter (intersects (t' :: ts')) (ds_questions σ)));
    [apply sublist_filter|].
  rewrite list_filter_filter. apply list_filter_iff. intros q. split.
  - intros [H _]. exact H.
  - intros H. split; [exact H|]. destruct H as (x & Hx & Hxq).
    exists x. split; [apply Hsub; exact Hx | exact Hxq].
Qed.

Lemma get_questions_by_tags_monotone_witness :
  exists small large,
    result_list (get_questions_by_tags (Some ["geo"]) three_questions) = Ok small /\
    result_list (get_questions_by_tags (Some ["math"; "geo"]) three_questions)
      = Ok large /\
    small `sublist_of` large.
Proof.
  destruct (get_questions_by_tags_monotone three_questions "geo" "math" [] ["geo"])
    as (small & large & Hs & Hl & Hsub & _).
  - intros x Hx. apply list_elem_of_singleton in Hx. subst x.
    apply list_elem_of_further, list_elem_of_here.
  - exists small, large. split; [exact Hs|]. split; [exact Hl | exact Hsub].
Defined.

Lemma question_of_item_to_dict (q : Question) : question_of_item (to_dict q) = q.
Proof.
  destruct q as [text ch co mo tg]. unfold question_of_item, to_dict, Question_init.
  cbn. f_equal. destruct tg; reflexivity.
Qed.

(** X14. Exporting and reloading is the identity on the questions:
    when the file read by [load] holds the array of dictionaries that
    [as_dict_list] returns, [load] succeeds and the dataset has the same
    question sequence as before. *)
Theorem as_dict_list_reload (env : environment) (path : option string)
    (σ : store) :
  exists items,
    as_dict_list σ = (Ok items, σ) /\
    length items = length (ds_questions σ) /\
    (files env (Pathlib.str (load_path env path))
       = Content (JArray (map JObject items)) ->
     exists σ',
       load env path σ = (Ok tt, σ') /\
       ds_questions σ' = ds_questions σ).
Proof.
  exists (map to_dict (ds_questions σ)).
  split; [reflexivity|]. split; [apply length_map|]. intros Hfile.
  destruct (load_run env path σ) as (h' & _ & Hrun).
  cbv zeta in Hrun. rewrite Hfile in Hrun. cbn [load_outcome iter_json Py.bind] in Hrun.
  rewrite entries_outcome_objects in Hrun. destruct Hrun as [Hrun Hl].
  eexists. split; [exact Hrun|].
  unfold ds_questions at 1. cbn [heap dataset questions].
  rewrite (lookup_total_correct _ _ _ Hl), <- list_fmap_compose.
  rewrite <- (list_fmap_id (ds_questions σ)) at 2.
  apply list_fmap_ext. intros i q _. apply question_of_item_to_dict.
Qed.

Lemma as_dict_list_reload_witness :
  exists σ',
    load {| module_dir := "/srv/quiz";
            files := fun _ => Content (JArray (map JObject
                                  (map to_dict [q_geo; q_math; q_both]))) |}
         (Some "export.json") three_questions = (Ok tt, σ') /\
    ds_questions σ' = [q_geo; q_math; q_both].
Proof.
  destruct (as_dict_list_reload
              {| module_dir := "/srv/quiz";
                 files := fun _ => Content (JArray (map JObject
                                       (map to_dict [q_geo; q_math; q_both]))) |}
              (Some "export.json") three_questions)
    as (items & Hitems & _ & Hreload).
  injection Hitems as <-.
  destruct (Hreload eq_refl) as (σ' & Hrun & Hds).
  exists σ'. split; [exact Hrun | exact Hds].
Defined.

(** * The singleton constructor *)

Lemma load_keeps_on_failure (env : environment)
    (path : option string) (σ : store) (e : exn) :
  fst (load env path σ) = Raise e ->
  dataset (snd (load env path σ)) = dataset σ /\
  forall l v, heap σ !! l = Some v -> heap (snd (load env path σ)) !! l = Some v.
Proof.
  intros Hfail. destruct (load_run env path σ) as (h' & Hold & Hrun).
  cbv zeta in Hrun.
  destruct (load_outcome (files env (Pathlib.str (load_path env path)))) as [its|e'].
  - destruct Hrun as [Hrun _]. rewrite Hrun in Hfail. discriminate.
  - rewrite Hrun. split; [reflexivity | exact Hold].
Qed.

Lemma load_keeps_lists (env : environment)
    (path : option string) (σ : store) :
  wf σ ->
  wf (snd (load env path σ)) /\
  forall l v, heap σ !! l = Some v -> heap (snd (load env path σ)) !! l = Some v.
Proof.
  intros [qs Hqs]. destruct (load_run env path σ) as (h' & Hold & Hrun).
  cbv zeta in Hrun.
  destruct (load_outcome (files env (Pathlib.str (load_path env path)))) as [its|e'].
  - destruct Hrun as [Hrun Hl]. rewrite Hrun. split; [|exact Hold].
    eexists. exact Hl.
  - rewrite Hrun. split; [|exact Hold]. exists qs. apply Hold. exact Hqs.
Qed.

(** X15. Constructing [QuestionDataset] when the instance exists keeps
    that instance: without a path (or with the empty path) nothing
    changes at all, and when the load of the given path raises, the
    instance still has the question sequence it had before. In every
    case the list objects that existed keep their contents. *)
Theorem QuestionDataset_new_existing (env : environment)
    (path : option string) (w : world) (d : QuestionDataset)
    (Hinst : _instance w = Some d) (Hwf : world_wf w) :
  let out := QuestionDataset_new env path w in
  world_wf (snd out) /\
  (forall l v, lists w !! l = Some v -> lists (snd out) !! l = Some v) /\
  (truthy path = false -> out = (Ok tt, w)) /\
  (forall e, fst out = Raise e ->
     _instance (snd out) = Some d /\
     world_questions (snd out) = world_questions w).
Proof.
  unfold QuestionDataset_new. rewrite Hinst. cbv zeta.
  set (σ := {| heap := lists w; dataset := d |}).
  assert (Hσ : wf σ).
  { unfold world_wf in Hwf. rewrite Hinst in Hwf. exact Hwf. }
  destruct (truthy path) eqn:Htruthy; cbn [fst snd].
  - destruct (load_keeps_lists env path σ Hσ) as [Hwf' Hold].
    split; [exact Hwf'|]. split; [exact Hold|]. split; [discriminate|].
    intros e He. destruct (load_keeps_on_failure env path σ e He) as [Hd _].
    cbn [_instance]. rewrite Hd. split; [reflexivity|].
    unfold world_questions. rewrite Hinst.
    change (heap (snd (load env path σ)) !! questions d = lists w !! questions d).
    destruct Hσ as [qs Hqs].
    transitivity (Some qs); [exact (Hold _ _ Hqs) | symmetry; exact Hqs].
  - split; [exact Hσ|]. split; [tauto|]. split.
    + intros _. destruct w as [h i]. cbn in *. rewrite Hinst. reflexivity.
    + intros e He. discriminate He.
Qed.

Lemma QuestionDataset_new_existing_witness :
  fst (QuestionDataset_new fs_two_records (Some "broken.json") world_three_questions)
    = Raise JSONDecodeError /\
  world_questions
    (snd (QuestionDataset_new fs_two_records (Some "broken.json")
            world_three_questions))
    = Some [q_geo; q_math; q_both].
Proof.
  assert (Hwf : world_wf world_three_questions) by (eexists; reflexivity).
  destruct (QuestionDataset_new_existing fs_two_records (Some "broken.json")
              world_three_questions (dataset three_questions) eq_refl Hwf)
    as (_ & _ & _ & Hfail).
  split; [reflexivity|].
  destruct (Hfail JSONDecodeError eq_refl) as [_ Hq]. rewrite Hq. reflexivity.
Defined.

(** X16. The first construction installs the instance before it loads:
    when no path is given, or when the load raises, the class is left
    with an instance whose question sequence is empty, and a later
    construction without a path returns normally with that empty
    instance. *)
Theorem QuestionDataset_new_first (env : environment)
    (path : option string) (w : world)
    (Hnone : _instance w = None)
    (Hfail : truthy path = false \/
             exists e, fst (QuestionDataset_new env path w) = Raise e) :
  let w' := snd (QuestionDataset_new env path w) in
  world_wf w' /\
  world_questions w' = Some [] /\
  QuestionDataset_new env None w' = (Ok tt, w').
Proof.
  unfold QuestionDataset_new in *. rewrite Hnone in *. cbv zeta in *.
  set (l := fresh (dom (lists w))) in *.
  set (σ := {| heap := <[l := []]> (lists w);
               dataset := {| questions := l; file_path := None |} |}) in *.
  assert (Hl : heap σ !! l = Some []) by apply lookup_insert_eq.
  destruct (truthy path) eqn:Htruthy; cbn [fst snd] in *.
  - destruct Hfail as [Hf|[e He]]; [discriminate|].
    destruct (load_keeps_on_failure env path σ e He) as [Hd Hold].
    assert (Hq : heap (snd (load env path σ)) !! l = Some []) by (apply Hold, Hl).
    unfold world_wf, world_questions. cbn [_instance lists truthy fst snd].
    rewrite Hd. split; [exists []; exact Hq|].
    split; [exact Hq | reflexivity].
  - unfold world_wf, world_questions. cbn [_instance lists truthy fst snd].
    split; [exists []; exact Hl|]. split; [exact Hl | reflexivity].
Qed.

Lemma QuestionDataset_new_first_witness :
  fst (QuestionDataset_new fs_two_records (Some "absent.json") empty_world)
    = Raise FileNotFoundError /\
  world_questions
    (snd (QuestionDataset_new fs_two_records (Some "absent.json") empty_world))
    = Some [].
Proof.
  split; [reflexivity|].
  apply (QuestionDataset_new_first fs_two_records (Some "absent.json") empty_world).
  - reflexivity.
  - right. exists FileNotFoundError. reflexivity.
Defined.

(** * The answer handlers of [app.py] *)

Lemma list_remove_perm (x : string) (l : list string) :
  x ∈ l -> exists l', App.list_remove x l = Some l' /\ l ≡ₚ x :: l'.
Proof.
  induction l as [|y l IH]; intros Hx; [inversion Hx|].
  cbn [App.list_remove]. destruct (decide (x = y)) as [->|Hne].
  - exists l. split; reflexivity.
  - apply elem_of_cons in Hx. destruct Hx as [Hx|Hx]; [contradiction|].
    destruct (IH Hx) as (l' & -> & Hperm). exists (y :: l').
    split; [reflexivity|]. rewrite Hperm. apply Permutation_swap.
Qed.

Lemma toggle_run (q : Question) (i : nat) (opt : string) (s : App.session) :
  let cur := default [] (App.selected_options s !! i) in
  exists sel,
    App._toggle_option q i opt s =
      Some {| App.answers := <[i := sel]> (App.answers s);
              App.selected_options := <[i := sel]> (App.selected_options s) |} /\
    (is_single q = true -> sel = [opt]) /\
    (is_single q = false ->
       (opt ∈ cur -> cur ≡ₚ opt :: sel) /\
       (opt ∉ cur -> sel = cur ++ [opt])).
Proof.
  intros cur. unfold App._toggle_option.
  set (so := match App.selected_options s !! i with
             | Some _ => App.selected_options s
             | None => <[i := []]> (App.selected_options s)
             end).
  assert (Hso : so !! i = Some cur).
  { unfold so, cur. destruct (App.selected_options s !! i) as [v|] eqn:E.
    - exact E.
    - apply lookup_insert_eq. }
  assert (Hins : forall v, <[i := v]> so = <[i := v]> (App.selected_options s)).
  { intros v. unfold so. destruct (App.selected_options s !! i);
      [reflexivity | apply insert_insert_eq]. }
  destruct (is_single q).
  - exists [opt]. cbn. rewrite lookup_insert_eq. cbn. rewrite Hins.
    split; [reflexivity|]. split; [reflexivity | discriminate].
  - rewrite Hso. cbn. destruct (decide (opt ∈ cur)) as [Hin|Hnin].
    + rewrite (bool_decide_eq_true_2 _ Hin).
      destruct (list_remove_perm opt cur Hin) as (sel & Hrm & Hperm).
      exists sel. rewrite Hrm. cbn. rewrite lookup_insert_eq. cbn. rewrite Hins.
      split; [reflexivity|]. split; [discriminate|]. intros _.
      split; [intros _; exact Hperm | contradiction].
    + rewrite (bool_decide_eq_false_2 _ Hnin).
      exists (cur ++ [opt]). cbn. rewrite lookup_insert_eq. cbn. rewrite Hins.
      split; [reflexivity|]. split; [discriminate|]. intros _.
      split; [contradiction | reflexivity].
Qed.

(** X17. [_toggle_option] never raises. It stores the same new
    selection for the question under [selected_options] and [answers]
    and touches no other position. On a single-choice question the new
    selection is the clicked option alone. On any other question whose
    selection has no repeated option, the new selection has none
    either, contains the clicked option exactly when the old one did
    not, and contains every other option exactly when the old one did. *)
Theorem toggle_option_spec (q : Question) (i : nat) (opt : string)
    (s : App.session) :
  let cur := default [] (App.selected_options s !! i) in
  exists sel,
    App._toggle_option q i opt s =
      Some {| App.answers := <[i := sel]> (App.answers s);
              App.selected_options := <[i := sel]> (App.selected_options s) |} /\
    (is_single q = true -> sel = [opt]) /\
    (is_single q = false -> NoDup cur ->
       NoDup sel /\
       (opt ∈ sel <-> opt ∉ cur) /\
       (forall x, x <> opt -> (x ∈ sel <-> x ∈ cur))).
Proof.
  intros cur. destruct (toggle_run q i opt s) as (sel & Hrun & Hsingle & Hmulti).
  fold cur in Hmulti. exists sel. split; [exact Hrun|]. split; [exact Hsingle|].
  intros Hm Hnd. destruct (Hmulti Hm) as [Hin Hnin].
  destruct (decide (opt ∈ cur)) as [H|H].
  - specialize (Hin H). rewrite Hin in Hnd. apply NoDup_cons in Hnd.
    destruct Hnd as [Hnotin Hnd']. split; [exact Hnd'|]. split; [tauto|].
    intros x Hx. rewrite Hin, elem_of_cons. tauto.
  - specialize (Hnin H). subst sel. split.
    + apply NoDup_app. split; [exact Hnd|]. split; [|apply NoDup_singleton].
      intros x Hx Hx'. apply list_elem_of_singleton in Hx'. subst x. contradiction.
    + split.
      * rewrite elem_of_app, list_elem_of_singleton. tauto.
      * intros x Hx. rewrite elem_of_app, list_elem_of_singleton. tauto.
Qed.

Lemma toggle_option_spec_witness :
  exists sel,
    App._toggle_option q_math 1 "4"
      {| App.answers := {[ 1%nat := ["2"; "4"] ]};
         App.selected_options := {[ 1%nat := ["2"; "4"] ]} |}
    = Some {| App.answers := <[1%nat := sel]> {[ 1%nat := ["2"; "4"] ]};
              App.selected_options := <[1%nat := sel]> {[ 1%nat := ["2"; "4"] ]} |} /\
    NoDup sel /\ ("4" ∉ sel) /\ ("2" ∈ sel).
Proof.
  destruct (toggle_option_spec q_math 1 "4"
              {| App.answers := {[ 1%nat := ["2"; "4"] ]};
                 App.selected_options := {[ 1%nat := ["2"; "4"] ]} |})
    as (sel & Hrun & _ & Hmulti).
  destruct (Hmulti eq_refl) as (Hnd & Hopt & Hother).
  { change (NoDup ["2"; "4"]). apply NoDup_cons. split.
    - rewrite list_elem_of_singleton. discriminate.
    - apply NoDup_singleton. }
  exists sel. split; [exact Hrun|]. split; [exact Hnd|]. split.
  - intros Hin. apply Hopt in Hin. apply Hin.
    change ("4" ∈ ["2"; "4"]). apply list_elem_of_further, list_elem_of_here.
  - apply Hother; [discriminate|].
    change ("2" ∈ ["2"; "4"]). apply list_elem_of_here.
Defined.

(** X18. On a question that is not single-choice, clicking the same
    option twice gives back a selection with the same options as
    before, provided the selection had no repeated option; when the
    option was not selected before, the very same list comes back. *)
Theorem toggle_option_twice (q : Question) (i : nat) (opt : string)
    (s : App.session)
    (Hmulti : is_single q = false)
    (Hnd : NoDup (default [] (App.selected_options s !! i))) :
  exists s1 s2 sel,
    App._toggle_option q i opt s = Some s1 /\
    App._toggle_option q i opt s1 = Some s2 /\
    App.selected_options s2 !! i = Some sel /\
    App.answers s2 !! i = Some sel /\
    sel ≡ₚ default [] (App.selected_options s !! i) /\
    (opt ∉ default [] (App.selected_options s !! i) ->
       sel = default [] (App.selected_options s !! i)).
Proof.
  set (cur := default [] (App.selected_options s !! i)) in *.
  destruct (toggle_run q i opt s) as (sel1 & Hrun1 & _ & Hm1).
  fold cur in Hm1. destruct (Hm1 Hmulti) as [Hin1 Hnin1].
  set (s1 := {| App.answers := <[i := sel1]> (App.answers s);
                App.selected_options := <[i := sel1]> (App.selected_options s) |})
    in *.
  destruct (toggle_run q i opt s1) as (sel2 & Hrun2 & _ & Hm2).
  assert (Hcur1 : default [] (App.selected_options s1 !! i) = sel1).
  { unfold s1. cbn. rewrite lookup_insert_eq. reflexivity. }
  rewrite Hcur1 in Hm2. destruct (Hm2 Hmulti) as [Hin2 Hnin2].
  eexists; eexists; exists sel2. split; [exact Hrun1|]. split; [exact Hrun2|].
  cbn [App.selected_options App.answers]. rewrite !lookup_insert_eq.
  split; [reflexivity|]. split; [reflexivity|].
  destruct (decide (opt ∈ cur)) as [H|H].
  - specialize (Hin1 H). split; [|contradiction].
    assert (Hnot : opt ∉ sel1).
    { rewrite Hin1 in Hnd. apply NoDup_cons in Hnd. tauto. }
    rewrite (Hnin2 Hnot), Hin1. symmetry. apply Permutation_cons_append.
  - specialize (Hnin1 H). subst sel1.
    assert (Hnow : opt ∈ cur ++ [opt]).
    { apply elem_of_app. right. apply list_elem_of_here. }
    specialize (Hin2 Hnow).
    assert (Hrm : App.list_remove opt (cur ++ [opt]) = Some cur).
    { clear -H. induction cur as [|y cur IH]; cbn.
      - destruct (decide (opt = opt)); [reflexivity | contradiction].
      - destruct (decide (opt = y)) as [->|Hne].
        + exfalso. apply H. apply list_elem_of_here.
        + rewrite IH; [reflexivity|]. intros Hin. apply H.
          apply list_elem_of_further. exact Hin. }
    assert (Hsel2 : sel2 = cur).
    { revert Hrun2. unfold App._toggle_option, s1.
      cbn [App.selected_options App.answers]. rewrite lookup_insert_eq, Hmulti.
      cbn. rewrite lookup_insert_eq. cbn.
      rewrite (bool_decide_eq_true_2 _ Hnow), Hrm. cbn.
      rewrite lookup_insert_eq. cbn. intros Heq. injection Heq as _ Hso.
      apply (f_equal (fun m => m !! i)) in Hso.
      rewrite !lookup_insert_eq in Hso. injection Hso as <-. reflexivity. }
    subst sel2. split; [reflexivity | intros _; reflexivity].
Qed.

Lemma toggle_option_twice_witness :
  exists s1 s2,
    App._toggle_option q_math 1 "4"
      {| App.answers := ∅; App.selected_options := {[ 1%nat := ["2"] ]} |}
      = Some s1 /\
    App._toggle_option q_math 1 "4" s1 = Some s2 /\
    App.selected_options s2 !! 1%nat = Some ["2"].
Proof.
  destruct (toggle_option_twice q_math 1 "4"
              {| App.answers := ∅; App.selected_options := {[ 1%nat := ["2"] ]} |})
    as (s1 & s2 & sel & H1 & H2 & Hsel & _ & _ & Hsame).
  - reflexivity.
  - change (NoDup ["2"]). apply NoDup_singleton.
  - exists s1, s2. split; [exact H1|]. split; [exact H2|].
    rewrite Hsel. f_equal. apply Hsame. change ("4" ∉ ["2"]).
    rewrite list_elem_of_singleton. discriminate.
Defined.

Lemma finish_loop_S (n : nat) (s : App.session) :
  App.finish_loop (S n) s = App.finish_step (App.finish_loop n s) n.
Proof.
  unfold App.finish_loop. rewrite seq_S, foldl_app. reflexivity.
Qed.

Lemma finish_loop_run (n : nat) (s : App.session) :
  App.selected_options (App.finish_loop n s) = App.selected_options s /\
  forall i,
    App.answers (App.finish_loop n s) !! i =
      if decide (i < n)%nat then
        Some match App.selected_options s !! i with
             | Some sel => sel
             | None => default [] (App.answers s !! i)
             end
      else App.answers s !! i.
Proof.
  induction n as [|n [IHso IHans]].
  - split; [reflexivity|]. intros i. destruct (decide (i < 0)%nat); [lia|].
    reflexivity.
  - rewrite finish_loop_S. unfold App.finish_step. rewrite IHso.
    destruct (App.selected_options s !! n) as [sel|] eqn:Hsel.
    + cbn [App.selected_options App.answers]. split; [first [reflexivity | exact IHso]|].
      intros i. destruct (decide (i = n)) as [->|Hne].
      * rewrite lookup_insert_eq. destruct (decide (n < S n)%nat); [|lia].
        rewrite Hsel. reflexivity.
      * rewrite lookup_insert_ne by congruence. rewrite IHans.
        destruct (decide (i < n)%nat), (decide (i < S n)%nat);
          try reflexivity; lia.
    + pose proof (IHans n) as Hn. destruct (decide (n < n)%nat); [lia|].
      rewrite Hn. destruct (App.answers s !! n) as [v|] eqn:Hv.
      * split; [first [reflexivity | exact IHso]|]. intros i. rewrite IHans.
        destruct (decide (i = n)) as [->|Hne].
        -- destruct (decide (n < n)%nat); [lia|].
           destruct (decide (n < S n)%nat); [|lia].
           rewrite Hsel, Hv. reflexivity.
        -- destruct (decide (i < n)%nat), (decide (i < S n)%nat);
             try reflexivity; lia.
      * cbn [App.selected_options App.answers]. split; [first [reflexivity | exact IHso]|].
        intros i. destruct (decide (i = n)) as [->|Hne].
        -- rewrite lookup_insert_eq. destruct (decide (n < S n)%nat); [|lia].
           rewrite Hsel, Hv. reflexivity.
        -- rewrite lookup_insert_ne by congruence. rewrite IHans.
           destruct (decide (i < n)%nat), (decide (i < S n)%nat);
             try reflexivity; lia.
Qed.

(** X19. After the loop that opens [finish_quiz], every position of the
    quiz has an entry in [answers]: the selection of
    [selected_options] when there is one, else the answer already
    recorded, else the empty list. Positions outside the quiz and the
    dictionary [selected_options] are left as they were. Correcting the
    quiz with the completed answers gives the same result as correcting
    it with [selected_options] laid over the recorded answers. *)
Theorem finish_loop_spec (quiz : list Question) (s : App.session) :
  let s' := App.finish_loop (length quiz) s in
  App.selected_options s' = App.selected_options s /\
  (forall i, (i < length quiz)%nat ->
     App.answers s' !! i =
       Some match App.selected_options s !! i with
            | Some sel => sel
            | None => default [] (App.answers s !! i)
            end) /\
  (forall i, (length quiz <= i)%nat -> App.answers s' !! i = App.answers s !! i) /\
  correct_quiz quiz (App.answers s')
    = correct_quiz quiz (App.selected_options s ∪ App.answers s).
Proof.
  intros s'. destruct (finish_loop_run (length quiz) s) as [Hso Hans].
  fold s' in Hso, Hans. split; [exact Hso|].
  split; [|split].
  - intros i Hi. rewrite Hans. destruct (decide (i < length quiz)%nat); [|lia].
    reflexivity.
  - intros i Hi. rewrite Hans. destruct (decide (i < length quiz)%nat); [lia|].
    reflexivity.
  - unfold correct_quiz.
    rewrite (correct_loop_ext (App.answers s')
               (App.selected_options s ∪ App.answers s) quiz 0 [] 0%Q);
      [reflexivity|].
    intros i Hi. cbn [Nat.add]. rewrite Hans.
    destruct (decide (i < length quiz)%nat); [|lia].
    rewrite lookup_union.
    destruct (App.selected_options s !! i), (App.answers s !! i); reflexivity.
Qed.

Lemma finish_loop_spec_witness :
  App.answers
    (App.finish_loop (length [q_geo; q_math])
       {| App.answers := ∅; App.selected_options := {[ 0%nat := ["Lyon"] ]} |})
    !! 1%nat = Some [].
Proof.
  destruct (finish_loop_spec [q_geo; q_math]
              {| App.answers := ∅; App.selected_options := {[ 0%nat := ["Lyon"] ]} |})
    as (_ & Hfill & _).
  rewrite Hfill; [reflexivity | simpl; lia].
Defined.

(** * Statistics by module *)

Section Dict.
Context {V : Type}.
Implicit Types (d : App.dict V) (k : string) (v : V).

Lemma dict_get_None d k : App.dict_get k d = None <-> k ∉ keys d.
Proof.
  induction d as [|[k' v'] d IH]; cbn.
  - split; [intros _ H; inversion H | reflexivity].
  - destruct (decide (k = k')) as [->|Hne].
    + split; [discriminate|]. intros H. exfalso. apply H, list_elem_of_here.
    + rewrite IH. unfold keys. cbn. rewrite not_elem_of_cons. tauto.
Qed.

Lemma dict_get_Some_key d k v : App.dict_get k d = Some v -> k ∈ keys d.
Proof.
  intros H. destruct (decide (k ∈ keys d)) as [Hin|Hnin]; [exact Hin|].
  apply dict_get_None in Hnin. congruence.
Qed.

Lemma dict_get_is_Some d k : k ∈ keys d -> is_Some (App.dict_get k d).
Proof.
  intros Hin. destruct (App.dict_get k d) eqn:E; [eexists; reflexivity|].
  apply dict_get_None in E. contradiction.
Qed.

Lemma dict_get_set_eq d k v : App.dict_get k (App.dict_set k v d) = Some v.
Proof.
  induction d as [|[k' v'] d IH]; cbn.
  - destruct (decide (k = k)); [reflexivity | contradiction].
  - destruct (decide (k = k')) as [->|Hne]; cbn.
    + destruct (decide (k' = k')); [reflexivity | contradiction].
    + destruct (decide (k = k')); [contradiction | exact IH].
Qed.

Lemma dict_get_set_ne d k k' v :
  k <> k' -> App.dict_get k' (App.dict_set k v d) = App.dict_get k' d.
Proof.
  intros Hne. induction d as [|[k0 v0] d IH]; cbn.
  - destruct (decide (k' = k)); [congruence | reflexivity].
  - destruct (decide (k = k0)) as [->|Hne0]; cbn.
    + destruct (decide (k' = k0)); [congruence | reflexivity].
    + destruct (decide (k' = k0)); [reflexivity | exact IH].
Qed.

Lemma keys_set_new d k v :
  k ∉ keys d -> keys (App.dict_set k v d) = keys d ++ [k].
Proof.
  induction d as [|[k' v'] d IH]; intros Hk; cbn; [reflexivity|].
  unfold keys in Hk. cbn in Hk. apply not_elem_of_cons in Hk.
  destruct Hk as [Hne Hk]. destruct (decide (k = k')); [contradiction|].
  unfold keys in *. cbn. f_equal. apply IH. exact Hk.
Qed.

Lemma keys_set_old d k v :
  k ∈ keys d -> keys (App.dict_set k v d) = keys d.
Proof.
  induction d as [|[k' v'] d IH]; intros Hk; cbn; [inversion Hk|].
  destruct (decide (k = k')) as [->|Hne]; [reflexivity|].
  unfold keys in *. cbn in *. f_equal. apply IH.
  apply elem_of_cons in Hk. destruct Hk; [contradiction | assumption].
Qed.

Lemma dict_set_set d k v v' :
  App.dict_set k v (App.dict_set k v' d) = App.dict_set k v d.
Proof.
  induction d as [|[k0 v0] d IH]; cbn.
  - destruct (decide (k = k)); [reflexivity | contradiction].
  - destruct (decide (k = k0)) as [->|Hne]; cbn.
    + destruct (decide (k0 = k0)); [reflexivity | contradiction].
    + destruct (decide (k = k0)); [contradiction|]. f_equal. exact IH.
Qed.

End Dict.

Lemma scores_for_app (m : string) (ev ev' : list (string * Q)) :
  scores_for m (ev ++ ev') = scores_for m ev ++ scores_for m ev'.
Proof. unfold scores_for. rewrite filter_app, map_app. reflexivity. Qed.

Lemma scores_for_absent (m : string) (ev : list (string * Q)) :
  m ∉ map fst ev -> scores_for m ev = [].
Proof.
  intros Hm. unfold scores_for.
  induction ev as [|[k x] ev IH]; [reflexivity|].
  cbn in Hm. apply not_elem_of_cons in Hm. destruct Hm as [Hne Hm].
  rewrite filter_cons. cbn. destruct (decide (k = m)); [congruence|].
  apply IH. exact Hm.
Qed.

Lemma Qsum_snoc (l : list Q) (x : Q) : (Qsum (l ++ [x]) == Qsum l + x)%Q.
Proof.
  induction l as [|y l IH]; cbn.
  - lra.
  - change (foldr Qplus 0%Q (l ++ [x])) with (Qsum (l ++ [x])).
    change (foldr Qplus 0%Q l) with (Qsum l). rewrite IH. lra.
Qed.

Lemma stats_inv_nil : stats_inv [] [] [].
Proof.
  unfold stats_inv, keys. cbn. split; [reflexivity|].
  split; [apply NoDup_nil_2|]. split; [tauto|]. split; intros; discriminate.
Qed.

Lemma add_module_inv (per_question : list QuestionResult) (i : nat)
    (r : QuestionResult) (ev : list (string * Q))
    (scores : App.dict Q) (counts : App.dict nat) (m : string) :
  per_question !! i = Some r ->
  stats_inv ev scores counts ->
  exists scores' counts',
    App.add_module per_question i (scores, counts) m = Some (scores', counts') /\
    stats_inv (ev ++ [(m, res_score r)]) scores' counts'.
Proof.
  intros Hr (Hkeys & Hnd & Hmem & Hsum & Hcnt).
  unfold App.add_module.
  assert (Hone : scores_for m [(m, res_score r)] = [res_score r]).
  { unfold scores_for. rewrite filter_cons. cbn.
    destruct (decide (m = m)); [reflexivity | contradiction]. }
  assert (Hother : forall m', m' <> m -> scores_for m' [(m, res_score r)] = []).
  { intros m' Hne. unfold scores_for. rewrite filter_cons. cbn.
    destruct (decide (m = m')); [congruence | reflexivity]. }
  destruct (App.dict_get m scores) as [s|] eqn:Hs.
  - pose proof (dict_get_Some_key _ _ _ Hs) as Hin.
    assert (Hinc : m ∈ keys counts) by (rewrite <- Hkeys; exact Hin).
    destruct (dict_get_is_Some _ _ Hinc) as [c Hc].
    rewrite Hs, Hr, Hc. cbn.
    eexists; eexists. split; [reflexivity|].
    split; [rewrite !keys_set_old by assumption; exact Hkeys|].
    split; [rewrite keys_set_old by assumption; exact Hnd|].
    split.
    { intros m'. rewrite keys_set_old by assumption.
      rewrite map_app, elem_of_app, Hmem. cbn. rewrite list_elem_of_singleton.
      split; [tauto|]. intros [H | ->]; [exact H | apply Hmem; exact Hin]. }
    split.
    + intros m' s'. rewrite scores_for_app. destruct (decide (m' = m)) as [->|Hne].
      * rewrite dict_get_set_eq. intros H. injection H as <-.
        rewrite Hone, Qsum_snoc, <- (Hsum m s Hs). reflexivity.
      * rewrite dict_get_set_ne by congruence. intros H.
        rewrite (Hother m' Hne), app_nil_r. apply Hsum. exact H.
    + intros m' c'. rewrite scores_for_app. destruct (decide (m' = m)) as [->|Hne].
      * rewrite dict_get_set_eq. intros H. injection H as <-.
        rewrite Hone, length_app, <- (Hcnt m c Hc). reflexivity.
      * rewrite dict_get_set_ne by congruence. intros H.
        rewrite (Hother m' Hne), app_nil_r. apply Hcnt. exact H.
  - pose proof (proj1 (dict_get_None _ _) Hs) as Hnin.
    assert (Hninc : m ∉ keys counts) by (rewrite <- Hkeys; exact Hnin).
    rewrite !dict_get_set_eq, Hr. cbn. rewrite !dict_set_set.
    eexists; eexists. split; [reflexivity|].
    assert (Hnew : m ∉ map fst ev) by (rewrite <- Hmem; exact Hnin).
    split; [rewrite !keys_set_new by assumption; rewrite Hkeys; reflexivity|].
    split.
    { rewrite keys_set_new by assumption. apply NoDup_app.
      split; [exact Hnd|]. split; [|apply NoDup_singleton].
      intros x Hx Hx'. apply list_elem_of_singleton in Hx'. subst x. contradiction. }
    split.
    { intros m'. rewrite keys_set_new by assumption.
      rewrite map_app, !elem_of_app, Hmem. reflexivity. }
    split.
    + intros m' s'. rewrite scores_for_app. destruct (decide (m' = m)) as [->|Hne].
      * rewrite dict_get_set_eq. intros H. injection H as <-.
        rewrite Hone, (scores_for_absent m ev Hnew). cbn. lra.
      * rewrite dict_get_set_ne by congruence. intros H.
        rewrite (Hother m' Hne), app_nil_r. apply Hsum. exact H.
    + intros m' c'. rewrite scores_for_app. destruct (decide (m' = m)) as [->|Hne].
      * rewrite dict_get_set_eq. intros H. injection H as <-.
        rewrite Hone, (scores_for_absent m ev Hnew). reflexivity.
      * rewrite dict_get_set_ne by congruence. intros H.
        rewrite (Hother m' Hne), app_nil_r. apply Hcnt. exact H.
Qed.

Lemma add_modules_inv (per_question : list QuestionResult) (i : nat)
    (r : QuestionResult) (ms : list string) :
  per_question !! i = Some r ->
  forall (ev : list (string * Q)) (scores : App.dict Q) (counts : App.dict nat),
    stats_inv ev scores counts ->
    exists scores' counts',
      App.add_modules per_question i (scores, counts) ms
        = Some (scores', counts') /\
      stats_inv (ev ++ map (fun m => (m, res_score r)) ms) scores' counts'.
Proof.
  intros Hr. induction ms as [|m ms IH]; intros ev scores counts Hinv.
  - exists scores, counts. split; [reflexivity|]. cbn. rewrite app_nil_r. exact Hinv.
  - destruct (add_module_inv per_question i r ev scores counts m Hr Hinv)
      as (s1 & c1 & Hrun & Hinv1).
    destruct (IH _ _ _ Hinv1) as (s2 & c2 & Hrun2 & Hinv2).
    exists s2, c2. cbn [App.add_modules]. rewrite Hrun. cbn. rewrite Hrun2.
    split; [reflexivity|]. cbn [map]. rewrite <- app_assoc in Hinv2. exact Hinv2.
Qed.

Lemma stats_loop_inv (per_question : list QuestionResult)
    (questions : list Question) :
  forall (i : nat) (ev : list (string * Q)) (scores : App.dict Q)
         (counts : App.dict nat),
    (i + length questions <= length per_question)%nat ->
    stats_inv ev scores counts ->
    exists scores' counts',
      App.stats_loop per_question i questions (scores, counts)
        = Some (scores', counts') /\
      stats_inv (ev ++ module_events per_question i questions) scores' counts'.
Proof.
  induction questions as [|q rest IH]; intros i ev scores counts Hlen Hinv.
  - exists scores, counts. split; [reflexivity|]. cbn. rewrite app_nil_r. exact Hinv.
  - cbn [length] in Hlen.
    destruct (lookup_lt_is_Some_2 per_question i) as [r Hr]; [lia|].
    destruct (add_modules_inv per_question i r (App.modules_of q) Hr
                ev scores counts Hinv) as (s1 & c1 & Hrun & Hinv1).
    destruct (IH (S i) _ s1 c1 ltac:(lia) Hinv1) as (s2 & c2 & Hrun2 & Hinv2).
    exists s2, c2. cbn [App.stats_loop]. rewrite Hrun. cbn. rewrite Hrun2.
    split; [reflexivity|]. cbn [module_events]. rewrite Hr. cbn.
    rewrite <- app_assoc in Hinv2. exact Hinv2.
Qed.

Lemma scores_for_present (m : string) (ev : list (string * Q)) :
  m ∈ map fst ev -> (1 <= length (scores_for m ev))%nat.
Proof.
  unfold scores_for. induction ev as [|[k x] ev IH]; intros Hm; [inversion Hm|].
  rewrite filter_cons. cbn in *. destruct (decide (k = m)) as [->|Hne].
  - cbn. lia.
  - apply elem_of_cons in Hm. destruct Hm as [->|Hm]; [contradiction|].
    apply IH. exact Hm.
Qed.

Lemma build_stats_run (ev : list (string * Q)) (scores : App.dict Q)
    (counts : App.dict nat) :
  stats_inv ev scores counts ->
  forall ks : App.dict Q,
    (forall k, k ∈ keys ks -> k ∈ keys scores) ->
    exists stats,
      App.build_stats ks scores counts = Some stats /\
      map App.module stats = keys ks /\
      Forall (stat_for ev) stats.
Proof.
  intros (Hkeys & Hnd & Hmem & Hsum & Hcnt).
  induction ks as [|[m x] ks IH]; intros Hks.
  - exists []. split; [reflexivity|]. split; [reflexivity | constructor].
  - assert (Hm : m ∈ keys scores) by (apply Hks, list_elem_of_here).
    destruct (dict_get_is_Some _ _ Hm) as [sv Hs].
    assert (Hmc : m ∈ keys counts) by (rewrite <- Hkeys; exact Hm).
    destruct (dict_get_is_Some _ _ Hmc) as [c Hc].
    pose proof (Hcnt m c Hc) as Hcval.
    pose proof (scores_for_present m ev (proj1 (Hmem m) Hm)) as Hpos.
    destruct IH as (stats & Hrun & Hmods & Hall).
    { intros k Hk. apply Hks, list_elem_of_further, Hk. }
    cbn [App.build_stats]. rewrite Hs, Hc. cbn.
    destruct c as [|c']; [lia|]. cbn. rewrite Hrun. cbn.
    eexists. split; [reflexivity|]. split.
    + cbn. unfold keys in *. cbn. f_equal. exact Hmods.
    + constructor; [|exact Hall]. unfold stat_for. cbn.
      split; [exact Hcval|]. split; [lia|]. split; [|reflexivity].
      rewrite (Hsum m sv Hs). reflexivity.
Qed.

Lemma insert_desc_perm (x : App.module_stat) (l : list App.module_stat) :
  App.insert_desc x l ≡ₚ x :: l.
Proof.
  induction l as [|y l IH]; [reflexivity|].
  cbn [App.insert_desc]. destruct (App.score x ?= App.score y)%Q;
    try reflexivity.
  rewrite IH. apply Permutation_swap.
Qed.

Lemma sorted_desc_perm (l : list App.module_stat) : App.sorted_desc l ≡ₚ l.
Proof.
  induction l as [|x l IH]; [reflexivity|].
  cbn. rewrite insert_desc_perm. f_equiv. exact IH.
Qed.

Lemma insert_desc_sorted (x : App.module_stat) (l : list App.module_stat) :
  sorted_by_score l -> sorted_by_score (App.insert_desc x l).
Proof.
  unfold sorted_by_score. induction 1 as [|y l Hl IH Hy]; cbn [App.insert_desc].
  - constructor; constructor.
  - destruct (Qcompare_spec (App.score x) (App.score y)) as [Heq|Hlt|Hgt].
    + constructor; [constructor; assumption|].
      constructor; [rewrite Heq; apply Qle_refl|].
      eapply Forall_impl; [exact Hy|]. intros z Hz. cbn in *.
      rewrite Heq. exact Hz.
    + constructor; [exact IH|].
      rewrite insert_desc_perm. constructor; [|exact Hy].
      apply Qlt_le_weak. exact Hlt.
    + constructor; [constructor; assumption|].
      constructor; [apply Qlt_le_weak; exact Hgt|].
      eapply Forall_impl; [exact Hy|]. intros z Hz. cbn in *.
      apply Qlt_le_weak in Hgt. eapply Qle_trans; eassumption.
Qed.

Lemma sorted_desc_sorted (l : list App.module_stat) :
  sorted_by_score (App.sorted_desc l).
Proof.
  induction l as [|x l IH]; [constructor|].
  cbn. apply insert_desc_sorted. exact IH.
Qed.

Lemma module_events_modules (per_question : list QuestionResult)
    (questions : list Question) :
  forall i m,
    m ∈ map fst (module_events per_question i questions)
    <-> exists q, q ∈ questions /\ m ∈ App.modules_of q.
Proof.
  induction questions as [|q rest IH]; intros i m; cbn [module_events].
  - cbn. split; [intros H; inversion H|]. intros (q & Hq & _). inversion Hq.
  - rewrite map_app, elem_of_app, IH, map_map. cbn. rewrite map_id. split.
    + intros [H|(q' & Hq' & Hm)].
      * exists q. split; [apply list_elem_of_here | exact H].
      * exists q'. split; [apply list_elem_of_further; exact Hq' | exact Hm].
    + intros (q' & Hq' & Hm). apply elem_of_cons in Hq'.
      destruct Hq' as [->|Hq']; [left; exact Hm|].
      right. exists q'. split; assumption.
Qed.

Lemma calculate_module_stats_run (questions : list Question)
    (per_question : list QuestionResult) :
  (length questions <= length per_question)%nat ->
  exists stats,
    App.calculate_module_stats questions per_question = Some stats /\
    sorted_by_score stats /\
    NoDup (map App.module stats) /\
    (forall m, m ∈ map App.module stats
               <-> exists q, q ∈ questions /\ m ∈ App.modules_of q) /\
    Forall (stat_for (module_events per_question 0 questions)) stats.
Proof.
  intros Hlen.
  destruct (stats_loop_inv per_question questions 0 [] [] [] Hlen stats_inv_nil)
    as (scores & counts & Hloop & Hinv).
  cbn [app] in Hinv.
  destruct (build_stats_run _ scores counts Hinv scores) as (stats & Hbuild & Hmods & Hall).
  { tauto. }
  exists (App.sorted_desc stats). split.
  { unfold App.calculate_module_stats.
    change (App.stats_loop per_question 0 questions ([], []))
      with (App.stats_loop per_question 0 questions
              (@nil (string * Q) : App.dict Q, @nil (string * nat) : App.dict nat)).
    cbv beta. cbn. cbn in Hloop. rewrite Hloop. cbn. rewrite Hbuild. reflexivity. }
  destruct Hinv as (_ & Hnd & Hmem & _).
  pose proof (sorted_desc_perm stats) as Hperm.
  split; [apply sorted_desc_sorted|].
  split; [rewrite Hperm, Hmods; exact Hnd|].
  split.
  - intros m. rewrite Hperm, Hmods, Hmem. apply module_events_modules.
  - rewrite Hperm. exact Hall.
Qed.

(** X20. Given a score record for every question, [calculate_module_stats]
    never raises. It lists each module once: the modules are the tags of
    the questions, plus ["Général"] when some question has no tag. The
    list is in decreasing order of score. *)
Theorem calculate_module_stats_modules (questions : list Question)
    (per_question : list QuestionResult)
    (Hlen : (length questions <= length per_question)%nat) :
  exists stats,
    App.calculate_module_stats questions per_question = Some stats /\
    sorted_by_score stats /\
    NoDup (map App.module stats) /\
    (forall m, m ∈ map App.module stats
               <-> exists q, q ∈ questions /\ m ∈ App.modules_of q) /\
    (forall m, m ∈ map App.module stats <->
               (exists q, q ∈ questions /\ m ∈ tags q) \/
               (m = "Général" /\ exists q, q ∈ questions /\ tags q = [])).
Proof.
  destruct (calculate_module_stats_run questions per_question Hlen)
    as (stats & Hrun & Hsorted & Hnd & Hmods & _).
  exists stats. split; [exact Hrun|]. split; [exact Hsorted|].
  split; [exact Hnd|]. split; [exact Hmods|].
  intros m. rewrite Hmods. split.
  - intros (q & Hq & Hm). unfold App.modules_of in Hm.
    destruct (tags q) as [|t ts] eqn:Ht.
    + right. apply list_elem_of_singleton in Hm. split; [exact Hm|].
      exists q. split; assumption.
    + left. exists q. split; [exact Hq|]. rewrite Ht. exact Hm.
  - intros [(q & Hq & Hm)|(-> & q & Hq & Ht)]; exists q; (split; [exact Hq|]);
      unfold App.modules_of.
    + destruct (tags q); [inversion Hm | exact Hm].
    + rewrite Ht. apply list_elem_of_here.
Qed.

Lemma calculate_module_stats_modules_witness :
  exists stats,
    App.calculate_module_stats [q_geo; q_both]
      [mkQuestionResult 0 "" "" [] [] 1 1; mkQuestionResult 1 "" "" [] [] 0 1]
      = Some stats /\
    sorted_by_score stats /\
    ("math" ∈ map App.module stats).
Proof.
  destruct (calculate_module_stats_modules [q_geo; q_both]
              [mkQuestionResult 0 "" "" [] [] 1 1;
               mkQuestionResult 1 "" "" [] [] 0 1])
    as (stats & Hrun & Hsorted & _ & Hmods & _).
  { simpl. lia. }
  exists stats. split; [exact Hrun|]. split; [exact Hsorted|].
  apply Hmods. exists q_both. split.
  - apply list_elem_of_further, list_elem_of_here.
  - apply list_elem_of_further, list_elem_of_here.
Defined.

(** X21. Each entry of [calculate_module_stats] is the average of its
    module: a question contributes its score once for every occurrence
    of the module among its tags (once to ["Général"] when it has
    none); [count] is the number of contributions, [score] their sum
    divided by [count], times 100, and [feedback] is [get_feedback] of
    that score. *)
Theorem calculate_module_stats_averages (questions : list Question)
    (per_question : list QuestionResult)
    (Hlen : (length questions <= length per_question)%nat) :
  exists stats,
    App.calculate_module_stats questions per_question = Some stats /\
    Forall (stat_for (module_events per_question 0 questions)) stats.
Proof.
  destruct (calculate_module_stats_run questions per_question Hlen)
    as (stats & Hrun & _ & _ & _ & Hall).
  exists stats. split; [exact Hrun | exact Hall].
Qed.

Lemma calculate_module_stats_averages_witness :
  exists stats,
    App.calculate_module_stats [q_geo; q_both]
      [mkQuestionResult 0 "" "" [] [] 1 1; mkQuestionResult 1 "" "" [] [] 0 1]
      = Some stats /\
    Forall (fun st => 1 <= App.count st)%nat stats.
Proof.
  destruct (calculate_module_stats_averages [q_geo; q_both]
              [mkQuestionResult 0 "" "" [] [] 1 1;
               mkQuestionResult 1 "" "" [] [] 0 1])
    as (stats & Hrun & Hall).
  { simpl. lia. }
  exists stats. split; [exact Hrun|].
  eapply Forall_impl; [exact Hall|]. intros st (_ & H & _). exact H.
Defined.

Lemma module_events_unit (per_question : list QuestionResult)
    (questions : list Question) :
  Forall (fun e => in_unit_interval (res_score e)) per_question ->
  forall i, Forall in_unit_interval (map snd (module_events per_question i questions)).
Proof.
  intros Hunit. induction questions as [|q rest IH]; intros i; [constructor|].
  cbn [module_events]. rewrite map_app. apply Forall_app. split; [|apply IH].
  rewrite map_map. cbn. apply Forall_forall. intros x Hx.
  apply list_elem_of_fmap in Hx. destruct Hx as (m & -> & _).
  destruct (per_question !! i) as [r|] eqn:Hr; cbn.
  - rewrite Forall_forall in Hunit. apply Hunit.
    apply list_elem_of_lookup. exists i. exact Hr.
  - split; [apply Qle_refl | discriminate].
Qed.

(** X22. The statistics of a corrected quiz are always defined:
    whatever the quiz and the answers, [calculate_module_stats] applied
    to the questions and the result of [correct_quiz] returns a list in
    which every score is a percentage between 0 and 100 and every
    count is at least 1. *)
Theorem module_stats_of_correction (questions : list Question)
    (answers : gmap nat (list string)) :
  exists r stats,
    correct_quiz questions answers = Ok r /\
    App.calculate_module_stats questions (per_question r) = Some stats /\
    Forall (fun st => (0 <= App.score st)%Q /\ (App.score st <= 100)%Q /\
                      (1 <= App.count st)%nat) stats.
Proof.
  destruct (correct_quiz_run questions answers)
    as (entries & total & Hrun & _ & Hlen & Hunit & _).
  destruct (calculate_module_stats_run questions entries) as (stats & Hstats & _ & _ & _ & Hall).
  { lia. }
  eexists; exists stats. split; [exact Hrun|]. cbn [per_question].
  split; [exact Hstats|].
  eapply Forall_impl; [exact Hall|]. intros st (Hc & Hpos & Hscore & _).
  set (l := scores_for (App.module st) (module_events entries 0 questions)) in *.
  assert (Hl : Forall in_unit_interval l).
  { unfold l, scores_for. apply Forall_forall. intros x Hx.
    apply list_elem_of_fmap in Hx. destruct Hx as (e & -> & He).
    apply list_elem_of_filter in He. destruct He as [_ He].
    pose proof (module_events_unit entries questions Hunit 0) as Hev.
    rewrite Forall_forall in Hev. apply Hev.
    apply list_elem_of_fmap. exists e. split; [reflexivity | exact He]. }
  destruct (Qsum_bounds l Hl) as [H0 H1]. rewrite <- Hc in H1.
  set (n := inject_Z (Z.of_nat (App.count st))) in *.
  assert (Hn : (0 < n)%Q) by (apply denom_pos; lia).
  assert (Ha : (0 <= Qsum l / n)%Q).
  { apply Qle_shift_div_l; [exact Hn | lra]. }
  assert (Hb : (Qsum l / n <= 1)%Q).
  { apply Qle_shift_div_r; [exact Hn | lra]. }
  split; [lra|]. split; [lra | exact Hpos].
Qed.
